(** * scrollgrid raycasting: voxel line tracers and the ray/box test

    A shallow embedding of [include/scrollgrid/raycasting.hpp]:
    the three integer Bresenham tracers ([bresenham_trace] on [Vec3Ix],
    [bresenham_trace_simple], [bresenham_trace] on [Vec2Ix]) and the slab
    test [aabb_ray_intersect].

    Integers are [Z].  The tracers keep their working copies in C++ [int]
    (32 bits) although the endpoints are [int64_t]; every narrowing and every
    [int] operation is written out with its wrap-around (the conversion is
    modular; for [int] arithmetic that overflows, which C++ leaves undefined,
    wrap-around is what the hardware does, and no statement below depends on
    it).  The endless [for] loops are structural recursions on a step budget;
    a run that exhausts the budget reports the state it reached.  Rocq has no
    overloading: the tracer on [Vec2Ix] is [bresenham_trace2]. *)

From Stdlib Require Import ZArith List Lia Bool QArith Lqa Floats.
Import ListNotations.
Local Open Scope Z_scope.

(** ** Machine integers *)

Definition int_min : Z := - 2 ^ 31.
Definition int_max : Z := 2 ^ 31 - 1.

(** Conversion to [int]: the value modulo 2^32, taken in [int_min .. int_max]. *)
Definition to_int (z : Z) : Z := (z + 2 ^ 31) mod 2 ^ 32 - 2 ^ 31.

(** Arithmetic on [int64_t] (the component type of [Vec3Ix] and [Vec2Ix]). *)
Definition wrap64 (z : Z) : Z := (z + 2 ^ 63) mod 2 ^ 64 - 2 ^ 63.

Definition int_add (a b : Z) : Z := to_int (a + b).
Definition int_sub (a b : Z) : Z := to_int (a - b).
Definition int_neg (a : Z) : Z := to_int (- a).
Definition int_mul (a b : Z) : Z := to_int (a * b).

(** ** Grid coordinates, visitors and outcomes *)

(** Modelled from the spec: [Vec3Ix] and [Vec2Ix] (the header
    [scrollgrid/grid_types.hpp] is not among the sources).  "Integer
    3-vector / 2-vector: indices into the voxel grid; may be negative or
    positive; 64-bit component width."  [c0], [c1], [c2] are [v[0]], [v[1]],
    [v[2]]. *)
Record Vec3Ix : Type := V3 { c0 : Z; c1 : Z; c2 : Z }.
Record Vec2Ix : Type := V2 { d0 : Z; d1 : Z }.

(** A [TraceFunctor] is called as [fun(x, y, z)] and answers whether to go
    on; whatever it touches is the state [St] threaded through the calls. *)
Definition TraceFunctor (St : Type) : Type := St -> Z -> Z -> Z -> St * bool.

(** The 2-D functor also receives the [end_cell] flag. *)
Definition TraceFunctor2 (St : Type) : Type := St -> Z -> Z -> bool -> St * bool.

Inductive outcome (St : Type) : Type :=
| Finished (s : St)
| OutOfFuel (s : St).
Arguments Finished {St} s.
Arguments OutOfFuel {St} s.

Definition state_of {St : Type} (o : outcome St) : St :=
  match o with Finished s => s | OutOfFuel s => s end.

Definition finished {St : Type} (o : outcome St) : bool :=
  match o with Finished _ => true | OutOfFuel _ => false end.

(** The sign/absolute-value preamble shared by all tracers:
    [if (d>0) s = 1; else if (d<0) { s = -1; d = -d; } else s = 0;]
    returns [(s, d)]. *)
Definition sign_abs (d : Z) : Z * Z :=
  if 0 <? d then (1, d)
  else if d <? 0 then (-1, int_neg d)
  else (0, d).

(** One secondary-axis Bresenham step:
    [if (dec >= 0) { dec -= a; c += s; }] returns [(dec, c)]. *)
Definition bres_step (dec a c s : Z) : Z * Z :=
  if 0 <=? dec then (int_sub dec a, int_add c s) else (dec, c).

(** ** The 3-D tracer with a visitor *)

Section Trace3.
Context {St : Type} (fun_ : TraceFunctor St).
Variables (e0 e1 e2 : Z) (sx sy sz ax ay az : Z).

Fixpoint loop_x (fuel : nat) (decy decz x y z : Z) (s : St) : outcome St :=
  match fuel with
  | O => OutOfFuel s
  | S fuel' =>
      let (s1, go) := fun_ s x y z in
      if negb go then Finished s1
      else if x =? e0 then Finished s1
      else
        let (decy1, y1) := bres_step decy ax y sy in
        let (decz1, z1) := bres_step decz ax z sz in
        loop_x fuel' (int_add decy1 ay) (int_add decz1 az)
               (int_add x sx) y1 z1 s1
  end.

Fixpoint loop_y (fuel : nat) (decx decz x y z : Z) (s : St) : outcome St :=
  match fuel with
  | O => OutOfFuel s
  | S fuel' =>
      let (s1, go) := fun_ s x y z in
      if negb go then Finished s1
      else if y =? e1 then Finished s1
      else
        let (decx1, x1) := bres_step decx ay x sx in
        let (decz1, z1) := bres_step decz ay z sz in
        loop_y fuel' (int_add decx1 ax) (int_add decz1 az)
               x1 (int_add y sy) z1 s1
  end.

Fixpoint loop_z (fuel : nat) (decx decy x y z : Z) (s : St) : outcome St :=
  match fuel with
  | O => OutOfFuel s
  | S fuel' =>
      let (s1, go) := fun_ s x y z in
      if negb go then Finished s1
      else if z =? e2 then Finished s1
      else
        let (decx1, x1) := bres_step decx az x sx in
        let (decy1, y1) := bres_step decy az y sy in
        loop_z fuel' (int_add decx1 ax) (int_add decy1 ay)
               x1 y1 (int_add z sz) s1
  end.
End Trace3.

Definition bresenham_trace {St : Type} (fuel : nat)
    (start_pos end_pos : Vec3Ix) (fun_ : TraceFunctor St) (s : St) : outcome St :=
  let x := to_int (c0 start_pos) in
  let y := to_int (c1 start_pos) in
  let z := to_int (c2 start_pos) in
  let '(sx, dx) := sign_abs (to_int (wrap64 (c0 end_pos - c0 start_pos))) in
  let '(sy, dy) := sign_abs (to_int (wrap64 (c1 end_pos - c1 start_pos))) in
  let '(sz, dz) := sign_abs (to_int (wrap64 (c2 end_pos - c2 start_pos))) in
  let ax := int_mul 2 dx in
  let ay := int_mul 2 dy in
  let az := int_mul 2 dz in
  if (dy <=? dx) && (dz <=? dx) then
    loop_x fun_ (c0 end_pos) sx sy sz ax ay az fuel
           (int_sub ay dx) (int_sub az dx) x y z s
  else if (dx <=? dy) && (dz <=? dy) then
    loop_y fun_ (c1 end_pos) sx sy sz ax ay az fuel
           (int_sub ax dy) (int_sub az dy) x y z s
  else if (dx <=? dz) && (dy <=? dz) then
    loop_z fun_ (c2 end_pos) sx sy sz ax ay az fuel
           (int_sub ax dz) (int_sub ay dz) x y z s
  else Finished s.

(** ** The counting tracer *)

(** Modelled from the spec: [ScrollGrid3] (the header
    [scrollgrid/scrollgrid3.hpp] is not among the sources).  "grid_to_mem(x,
    y, z) -> integer offset: a pure function from grid coordinate to linear
    store offset."  The tracer uses nothing else of the grid. *)
Record ScrollGrid3 : Type := { grid_to_mem : Z -> Z -> Z -> Z }.

(** Modelled from the spec: [DenseArray3] (the header
    [scrollgrid/dense_array3.hpp] is not among the sources).  "An addressable
    array of scalar counters, indexed by a single linear offset; mutated via
    += 1 per visit; no bounds checking."  A total map from offsets to
    unbounded counters. *)
Definition DenseArray3 : Type := Z -> Z.

(** [array3[mem_ix] += 1] *)

Definition array_incr (array3 : DenseArray3) (mem_ix : Z) : DenseArray3 :=
  fun i => if i =? mem_ix then array3 i + 1 else array3 i.

Section TraceSimple.
Variable grid3 : ScrollGrid3.
Variables (e0 e1 e2 : Z) (sx sy sz ax ay az : Z).

Fixpoint simple_loop_x (fuel : nat) (decy decz x y z : Z)
    (array3 : DenseArray3) : outcome DenseArray3 :=
  match fuel with
  | O => OutOfFuel array3
  | S fuel' =>
      let mem_ix := grid_to_mem grid3 x y z in
      let array3 := array_incr array3 mem_ix in
      if x =? e0 then Finished array3
      else
        let (decy1, y1) := bres_step decy ax y sy in
        let (decz1, z1) := bres_step decz ax z sz in
        simple_loop_x fuel' (int_add decy1 ay) (int_add decz1 az)
                      (int_add x sx) y1 z1 array3
  end.

Fixpoint simple_loop_y (fuel : nat) (decx decz x y z : Z)
    (array3 : DenseArray3) : outcome DenseArray3 :=
  match fuel with
  | O => OutOfFuel array3
  | S fuel' =>
      let mem_ix := grid_to_mem grid3 x y z in
      let array3 := array_incr array3 mem_ix in
      if y =? e1 then Finished array3
      else
        let (decx1, x1) := bres_step decx ay x sx in
        let (decz1, z1) := bres_step decz ay z sz in
        simple_loop_y fuel' (int_add decx1 ax) (int_add decz1 az)
                      x1 (int_add y sy) z1 array3
  end.

Fixpoint simple_loop_z (fuel : nat) (decx decy x y z : Z)
    (array3 : DenseArray3) : outcome DenseArray3 :=
  match fuel with
  | O => OutOfFuel array3
  | S fuel' =>
      let mem_ix := grid_to_mem grid3 x y z in
      let array3 := array_incr array3 mem_ix in
      if z =? e2 then Finished array3
      else
        let (decx1, x1) := bres_step decx az x sx in
        let (decy1, y1) := bres_step decy az y sy in
        simple_loop_z fuel' (int_add decx1 ax) (int_add decy1 ay)
                      x1 y1 (int_add z sz) array3
  end.
End TraceSimple.

Definition bresenham_trace_simple (fuel : nat) (start_pos end_pos : Vec3Ix)
    (grid3 : ScrollGrid3) (array3 : DenseArray3) : outcome DenseArray3 :=
  let x := to_int (c0 start_pos) in
  let y := to_int (c1 start_pos) in
  let z := to_int (c2 start_pos) in
  let '(sx, dx) := sign_abs (to_int (wrap64 (c0 end_pos - c0 start_pos))) in
  let '(sy, dy) := sign_abs (to_int (wrap64 (c1 end_pos - c1 start_pos))) in
  let '(sz, dz) := sign_abs (to_int (wrap64 (c2 end_pos - c2 start_pos))) in
  let ax := int_mul 2 dx in
  let ay := int_mul 2 dy in
  let az := int_mul 2 dz in
  if (dy <=? dx) && (dz <=? dx) then
    simple_loop_x grid3 (c0 end_pos) sx sy sz ax ay az fuel
                  (int_sub ay dx) (int_sub az dx) x y z array3
  else if (dx <=? dy) && (dz <=? dy) then
    simple_loop_y grid3 (c1 end_pos) sx sy sz ax ay az fuel
                  (int_sub ax dy) (int_sub az dy) x y z array3
  else if (dx <=? dz) && (dy <=? dz) then
    simple_loop_z grid3 (c2 end_pos) sx sy sz ax ay az fuel
                  (int_sub ax dz) (int_sub ay dz) x y z array3
  else Finished array3.

(** The visitor of the prose description of the counting tracer: bump the
    counter of the current cell and ask to go on. *)
Definition counting_functor (grid3 : ScrollGrid3) : TraceFunctor DenseArray3 :=
  fun array3 x y z => (array_incr array3 (grid_to_mem grid3 x y z), true).

(** Bumping the counters of a list of cells, one after the other. *)
Definition count_cells (grid3 : ScrollGrid3) (array3 : DenseArray3)
    (cells : list Vec3Ix) : DenseArray3 :=
  fold_left (fun arr c => array_incr arr (grid_to_mem grid3 (c0 c) (c1 c) (c2 c)))
            cells array3.

(** The memory offset of a cell, and how often a list of cells hits an
    offset. *)
Definition mem_of (grid3 : ScrollGrid3) (c : Vec3Ix) : Z :=
  grid_to_mem grid3 (c0 c) (c1 c) (c2 c).

Definition hits (grid3 : ScrollGrid3) (off : Z) (cells : list Vec3Ix) : Z :=
  Z.of_nat (length (filter (fun c => mem_of grid3 c =? off) cells)).


(** Running the counting tracer [n] times in a row on one pair of endpoints;
    a run that does not finish ends the sequence. *)
Fixpoint repeat_trace_simple (n : nat) (fuel : nat) (start_pos end_pos : Vec3Ix)
    (grid3 : ScrollGrid3) (array3 : DenseArray3) : outcome DenseArray3 :=
  match n with
  | O => Finished array3
  | S n' =>
      match bresenham_trace_simple fuel start_pos end_pos grid3 array3 with
      | Finished a => repeat_trace_simple n' fuel start_pos end_pos grid3 a
      | OutOfFuel a => OutOfFuel a
      end
  end.

(** ** The 2-D tracer *)

Section Trace2.
Context {St : Type} (fun_ : TraceFunctor2 St).
Variables (e0 e1 : Z) (sx sy ax ay : Z).

Fixpoint loop2_x (fuel : nat) (decy x y : Z) (s : St) : outcome St :=
  match fuel with
  | O => OutOfFuel s
  | S fuel' =>
      let end_cell := false in
      let (s1, go) := fun_ s x y end_cell in
      if negb go then Finished s1
      else if x =? e0 then Finished s1
      else
        let (decy1, y1) := bres_step decy ax y sy in
        loop2_x fuel' (int_add decy1 ay) (int_add x sx) y1 s1
  end.

Fixpoint loop2_y (fuel : nat) (decx x y : Z) (s : St) : outcome St :=
  match fuel with
  | O => OutOfFuel s
  | S fuel' =>
      let end_cell := false in
      let (s1, go) := fun_ s x y end_cell in
      if negb go then Finished s1
      else if y =? e1 then Finished s1
      else
        let (decx1, x1) := bres_step decx ay x sx in
        loop2_y fuel' (int_add decx1 ax) x1 (int_add y sy) s1
  end.
End Trace2.

Definition bresenham_trace2 {St : Type} (fuel : nat)
    (start_pos end_pos : Vec2Ix) (fun_ : TraceFunctor2 St) (s : St) : outcome St :=
  let x := to_int (d0 start_pos) in
  let y := to_int (d1 start_pos) in
  let '(sx, dx) := sign_abs (to_int (wrap64 (d0 end_pos - d0 start_pos))) in
  let '(sy, dy) := sign_abs (to_int (wrap64 (d1 end_pos - d1 start_pos))) in
  let ax := int_mul 2 dx in
  let ay := int_mul 2 dy in
  if dy <=? dx then
    loop2_x fun_ (d0 end_pos) sx sy ax ay fuel (int_sub ay dx) x y s
  else if dx <=? dy then
    loop2_y fun_ (d1 end_pos) sx sy ax ay fuel (int_sub ax dy) x y s
  else Finished s.

(** ** Observing a run

    A functor that only writes down the cells it is shown, and a wrapper that
    adds such a record to any functor without changing what it does. *)

Definition recording : TraceFunctor (list Vec3Ix) :=
  fun l x y z => (l ++ [V3 x y z], true).

Definition logged {St : Type} (f : TraceFunctor St) : TraceFunctor (St * list Vec3Ix) :=
  fun sl x y z =>
    let (s1, go) := f (fst sl) x y z in ((s1, snd sl ++ [V3 x y z]), go).

Definition logged2 {St : Type} (f : TraceFunctor2 St)
    : TraceFunctor2 (St * list (Vec2Ix * bool)) :=
  fun sl x y flag =>
    let (s1, go) := f (fst sl) x y flag in ((s1, snd sl ++ [(V2 x y, flag)]), go).

Definition recording2 : TraceFunctor2 (list Vec2Ix) :=
  fun l x y _ => (l ++ [V2 x y], true).

(** A 2-D cell seen in the plane z = 0, and back; a 2-D functor as a 3-D
    one that disregards [z] and is told [false] for the flag. *)
Definition lift (c : Vec2Ix) : Vec3Ix := V3 (d0 c) (d1 c) 0.
Definition drop_z (c : Vec3Ix) : Vec2Ix := V2 (c0 c) (c1 c).
Definition flat {St : Type} (f : TraceFunctor2 St) : TraceFunctor St :=
  fun s x y _ => f s x y false.

(** The cells the 3-D tracer shows to a functor that never stops it. *)
Definition trace_cells (fuel : nat) (start_pos end_pos : Vec3Ix) : list Vec3Ix :=
  state_of (bresenham_trace fuel start_pos end_pos recording []).

(** Feeding a list of cells to a functor, in order, until it declines:
    the state reached and whether every call asked to go on. *)
Fixpoint feed {St : Type} (f : TraceFunctor St) (s : St) (cells : list Vec3Ix)
    : St * bool :=
  match cells with
  | [] => (s, true)
  | c :: cs =>
      let (s1, go) := f s (c0 c) (c1 c) (c2 c) in
      if go then feed f s1 cs else (s1, false)
  end.

(** The answers a functor gives when shown all the cells of a list in order. *)
Fixpoint answers {St : Type} (f : TraceFunctor St) (s : St) (cells : list Vec3Ix)
    : list bool :=
  match cells with
  | [] => []
  | c :: cs =>
      let (s1, go) := f s (c0 c) (c1 c) (c2 c) in go :: answers f s1 cs
  end.

(** A functor that counts its calls and stops on the second. *)
Definition stop_at_second : TraceFunctor nat :=
  fun n _ _ _ => (S n, Nat.ltb (S n) 2).

(** Showing a recorded path to a functor: what the tracer does with it. *)
Definition replay {St : Type} (f : TraceFunctor St) (s : St)
    (o : outcome (list Vec3Ix)) : outcome St :=
  match o with
  | Finished p => Finished (fst (feed f s p))
  | OutOfFuel p =>
      let (s1, go) := feed f s p in
      if go then OutOfFuel s1 else Finished s1
  end.

Definition prepend (l : list Vec3Ix) (o : outcome (list Vec3Ix))
    : outcome (list Vec3Ix) :=
  match o with
  | Finished p => Finished (l ++ p)
  | OutOfFuel p => OutOfFuel (l ++ p)
  end.

(** The loops for the Y and Z driving axes are the X loop with the roles of
    the coordinates exchanged. *)
Definition swap_xy {St : Type} (f : TraceFunctor St) : TraceFunctor St :=
  fun s u v w => f s v u w.
Definition rot_zxy {St : Type} (f : TraceFunctor St) : TraceFunctor St :=
  fun s u v w => f s v w u.

Definition swap_cell (c : Vec3Ix) : Vec3Ix := V3 (c1 c) (c0 c) (c2 c).
Definition rot_cell (c : Vec3Ix) : Vec3Ix := V3 (c1 c) (c2 c) (c0 c).

Definition map_outcome {A B : Type} (g : A -> B) (o : outcome A) : outcome B :=
  match o with Finished a => Finished (g a) | OutOfFuel a => OutOfFuel (g a) end.

(** ** The line the tracer is meant to draw

    With [D] the largest per-axis distance, cell number [i] (from 0 to [D])
    lies [i * d / D] steps along an axis of distance [d], rounded to the
    nearest integer, halves upwards. *)

Definition bres_k (D d i : Z) : Z := (2 * i * d + D) / (2 * D).

(** The decision variable before the test of iteration [i]. *)
Definition bres_dec (D d i : Z) : Z :=
  2 * d - D + 2 * i * d - 2 * bres_k D d i * D.

Definition delta0 (a b : Vec3Ix) : Z := c0 b - c0 a.
Definition delta1 (a b : Vec3Ix) : Z := c1 b - c1 a.
Definition delta2 (a b : Vec3Ix) : Z := c2 b - c2 a.

(** Chebyshev distance between two cells. *)
Definition chebyshev (a b : Vec3Ix) : Z :=
  Z.max (Z.abs (delta0 a b)) (Z.max (Z.abs (delta1 a b)) (Z.abs (delta2 a b))).

Definition line_cell (a b : Vec3Ix) (i : Z) : Vec3Ix :=
  let D := chebyshev a b in
  V3 (c0 a + Z.sgn (delta0 a b) * bres_k D (Z.abs (delta0 a b)) i)
     (c1 a + Z.sgn (delta1 a b) * bres_k D (Z.abs (delta1 a b)) i)
     (c2 a + Z.sgn (delta2 a b) * bres_k D (Z.abs (delta2 a b)) i).

(** Cell [i] of the line drawn by a loop whose driving coordinate starts at
    [u0] and whose secondary coordinates start at [v0] and [w0]. *)
Definition uvw_cell (u0 v0 w0 su sv sw D dv dw : Z) (i : Z) : Vec3Ix :=
  V3 (u0 + su * i) (v0 + sv * bres_k D dv i) (w0 + sw * bres_k D dw i).

Definition zrange (i : Z) (n : nat) : list Z :=
  map (fun j => i + Z.of_nat j) (seq 0 n).

Definition line (a b : Vec3Ix) : list Vec3Ix :=
  map (line_cell a b) (zrange 0 (S (Z.to_nat (chebyshev a b)))).

(** Two cells one tracer step apart: no axis moves by more than one, and
    some axis moves. *)
Definition one_step (a b : Vec3Ix) : Prop :=
  Z.abs (delta0 a b) <= 1 /\ Z.abs (delta1 a b) <= 1 /\ Z.abs (delta2 a b) <= 1 /\
  1 <= chebyshev a b.

Definition Vec3Ix_eqb (a b : Vec3Ix) : bool :=
  (c0 a =? c0 b) && (c1 a =? c1 b) && (c2 a =? c2 b).

(** The endpoints on which the [int] working copies of the tracers are exact:
    every component fits an [int] and no distance exceeds 2^30 - 1, so that
    the doubled distances and the decision variables fit too. *)
Definition fits_int (z : Z) : Prop := int_min <= z <= int_max.

Definition int_exact (a b : Vec3Ix) : Prop :=
  fits_int (c0 a) /\ fits_int (c1 a) /\ fits_int (c2 a) /\
  fits_int (c0 b) /\ fits_int (c1 b) /\ fits_int (c2 b) /\
  chebyshev a b <= 2 ^ 30 - 1.

(** ** The ray/box test

    [aabb_ray_intersect] is a template over [Scalar]; it uses subtraction,
    multiplication and the comparisons [>] and [<] of that type, nothing
    else.  The class lists these, with an instance for IEEE-754 double
    precision (the kernel's [float]) and one for exact rationals. *)

Class Scalar (T : Type) : Type := {
  s_sub : T -> T -> T;
  s_mul : T -> T -> T;
  s_gt : T -> T -> bool;
  s_lt : T -> T -> bool }.

#[export] Instance float_Scalar : Scalar float := {
  s_sub := PrimFloat.sub;
  s_mul := PrimFloat.mul;
  s_gt a b := PrimFloat.ltb b a;
  s_lt a b := PrimFloat.ltb a b }.

#[export] Instance Q_Scalar : Scalar Q := {
  s_sub := Qminus;
  s_mul := Qmult;
  s_gt a b := negb (Qle_bool a b);
  s_lt a b := negb (Qle_bool b a) }.

Record Vec3 (T : Type) : Type := mkVec3 { vx : T; vy : T; vz : T }.
Arguments mkVec3 {T}.
Arguments vx {T}.
Arguments vy {T}.
Arguments vz {T}.

(** Modelled from the spec: [Box] (the header [scrollgrid/box.hpp] is not
    among the sources).  "An axis-aligned region defined by two corner points
    (min, max); exposes bound(i) returning the i-th corner (0=min, 1=max)."
    The index is a bit: [false] for 0, [true] for 1. *)
Record Box (T : Type) : Type := mkBox { box_min : Vec3 T; box_max : Vec3 T }.
Arguments mkBox {T}.
Arguments box_min {T}.
Arguments box_max {T}.

Definition bound {T : Type} (box : Box T) (i : bool) : Vec3 T :=
  if i then box_max box else box_min box.

(** Modelled from the spec: [Ray3] (the header [scrollgrid/ray.hpp] is not
    among the sources).  "Origin, direction, a precomputed reciprocal
    direction (may be +/-infinity when a component is zero), a 3-tuple of sign
    bits used to pick near/far box corners, and a mutable parametric interval
    [tmin, tmax]." *)
Record Ray3 (T : Type) : Type := mkRay3 {
  origin : Vec3 T;
  direction : Vec3 T;
  invdir : Vec3 T;
  sign : bool * bool * bool;
  tmin : T;
  tmax : T }.
Arguments mkRay3 {T}.
Arguments origin {T}.
Arguments direction {T}.
Arguments invdir {T}.
Arguments sign {T}.
Arguments tmin {T}.
Arguments tmax {T}.

Definition set_tmin {T : Type} (r : Ray3 T) (t : T) : Ray3 T :=
  mkRay3 (origin r) (direction r) (invdir r) (sign r) t (tmax r).
Definition set_tmax {T : Type} (r : Ray3 T) (t : T) : Ray3 T :=
  mkRay3 (origin r) (direction r) (invdir r) (sign r) (tmin r) t.

Inductive axis : Type := AxisX | AxisY | AxisZ.

Definition comp {T : Type} (a : axis) (v : Vec3 T) : T :=
  match a with AxisX => vx v | AxisY => vy v | AxisZ => vz v end.

(** [boost::get<a>(r.sign)] *)
Definition sign_bit {T : Type} (a : axis) (r : Ray3 T) : bool :=
  match a with
  | AxisX => fst (fst (sign r))
  | AxisY => snd (fst (sign r))
  | AxisZ => snd (sign r)
  end.

Section Aabb.
Context {T : Type} `{Scalar T}.

(** [(box.bound(sign).c() - r.origin.c()) * r.invdir.c()]: the parameter at
    which the ray enters the slab of an axis, and, with [1 - sign], the one at
    which it leaves. *)
Definition t_near (a : axis) (box : Box T) (r : Ray3 T) : T :=
  s_mul (s_sub (comp a (bound box (sign_bit a r))) (comp a (origin r)))
        (comp a (invdir r)).

Definition t_far (a : axis) (box : Box T) (r : Ray3 T) : T :=
  s_mul (s_sub (comp a (bound box (negb (sign_bit a r)))) (comp a (origin r)))
        (comp a (invdir r)).

(** The function returns its boolean and the ray as it leaves it. *)
Definition aabb_ray_intersect (box : Box T) (r : Ray3 T) : bool * Ray3 T :=
  let tmin0 := t_near AxisX box r in
  let tmax0 := t_far AxisX box r in
  let tymin := t_near AxisY box r in
  let tymax := t_far AxisY box r in
  if s_gt tmin0 tymax || s_gt tymin tmax0 then (false, r)
  else
    let tmin1 := if s_gt tymin tmin0 then tymin else tmin0 in
    let tmax1 := if s_lt tymax tmax0 then tymax else tmax0 in
    let tzmin := t_near AxisZ box r in
    let tzmax := t_far AxisZ box r in
    if s_gt tmin1 tzmax || s_gt tzmin tmax1 then (false, r)
    else
      let tmin2 := if s_gt tzmin tmin1 then tzmin else tmin1 in
      let tmax2 := if s_lt tzmax tmax1 then tzmax else tmax1 in
      let r1 := if s_gt tmin2 (tmin r) then set_tmin r tmin2 else r in
      let r2 := if s_lt tmax2 (tmax r1) then set_tmax r1 tmax2 else r1 in
      (true, r2).

(** "Not greater than", the one comparison the spec-side notions need. *)
Definition s_le (a b : T) : bool := negb (s_gt a b).

(** The wording of the specification: intervals overlap when every lower end is at
    most every upper end. *)
Definition intervals_overlap (lows highs : list T) : bool :=
  forallb (fun lo => forallb (fun hi => s_le lo hi) highs) lows.

(** The ray's segment [tmin, tmax] overlaps the three slab intervals. *)
Definition segment_meets_slabs (box : Box T) (r : Ray3 T) : bool :=
  intervals_overlap
    [tmin r; t_near AxisX box r; t_near AxisY box r; t_near AxisZ box r]
    [tmax r; t_far AxisX box r; t_far AxisY box r; t_far AxisZ box r].

(** The three slab intervals overlap one another. *)
Definition slabs_meet (box : Box T) (r : Ray3 T) : bool :=
  intervals_overlap
    [t_near AxisX box r; t_near AxisY box r; t_near AxisZ box r]
    [t_far AxisX box r; t_far AxisY box r; t_far AxisZ box r].

(** The slab test on two axes only. *)
Definition two_slabs_meet (a b : axis) (box : Box T) (r : Ray3 T) : bool :=
  negb (s_gt (t_near a box r) (t_far b box r) ||
        s_gt (t_near b box r) (t_far a box r)).
End Aabb.

(** The two axes other than a given one, in the order the test visits them. *)
Definition others (a : axis) : axis * axis :=
  match a with
  | AxisX => (AxisY, AxisZ)
  | AxisY => (AxisX, AxisZ)
  | AxisZ => (AxisX, AxisY)
  end.

(** Inputs used below: the unit cube, and a ray along Z that passes beside
    it (its X coordinate is 5). *)
Definition unit_box : Box float :=
  mkBox (mkVec3 0 0 0)%float (mkVec3 1 1 1)%float.

Definition ray_beside_box : Ray3 float :=
  mkRay3 (mkVec3 5 0.5 (-1))%float (mkVec3 0 0 1)%float
         (mkVec3 infinity infinity 1)%float (false, false, false) 0%float 100%float.

(** The preconditions of the test as the data model states them, on exact
    rationals: the box has min <= max on every axis, and the sign bit of an
    axis is set exactly when the reciprocal direction is negative there. *)
Definition box_ordered_Q (box : Box Q) : Prop :=
  forall a : axis, (comp a (box_min box) <= comp a (box_max box))%Q.

Definition ray_signs_agree_Q (r : Ray3 Q) : Prop :=
  forall a : axis, sign_bit a r = s_lt (comp a (invdir r)) 0%Q.

(** Double precision: the finite values are those strictly between the
    infinities; NaN is the one value not equal to itself. *)
Definition f_finite (x : float) : bool :=
  (neg_infinity <? x)%float && (x <? infinity)%float.

Definition f_not_nan (x : float) : bool := (x =? x)%float.

(** An order-preserving image of the doubles in the integers: a finite value
    of mantissa [m] and exponent [e] goes to [m * 2^(e + 1074)], signed (the
    least exponent is -1074), the infinities beyond every finite value. *)
Definition rank_inf : Z := 2 ^ 2100.

Definition sf_rank (x : spec_float) : Z :=
  match x with
  | S754_zero _ => 0
  | S754_infinity s => if s then - rank_inf else rank_inf
  | S754_nan => 0
  | S754_finite s m e =>
      if s then - (Z.pos m * 2 ^ (e + 1074)) else Z.pos m * 2 ^ (e + 1074)
  end.

Definition f_rank (x : float) : Q := inject_Z (sf_rank (Prim2SF x)).

(** A ray parallel to the two planes of a slab: its direction has no
    component along that axis, the reciprocal there is an infinity, and the
    sign bit tells which. *)
Definition parallel_to_slab (a : axis) (r : Ray3 float) : Prop :=
  (comp a (invdir r) = infinity /\ sign_bit a r = false) \/
  (comp a (invdir r) = neg_infinity /\ sign_bit a r = true).

(** The differences the test computes on an axis, from the origin to the
    low and to the high plane. *)
Definition to_min (a : axis) (box : Box float) (r : Ray3 float) : float :=
  s_sub (comp a (box_min box)) (comp a (origin r)).
Definition to_max (a : axis) (box : Box float) (r : Ray3 float) : float :=
  s_sub (comp a (box_max box)) (comp a (origin r)).

(** The origin strictly inside the extent of the box on an axis: the low
    plane is behind it and the high plane ahead. *)
Definition origin_inside (a : axis) (box : Box float) (r : Ray3 float) : Prop :=
  (to_min a box r <? 0)%float = true /\ (0 <? to_max a box r)%float = true.

(** The origin outside the extent: both planes ahead, or both behind. *)
Definition origin_outside (a : axis) (box : Box float) (r : Ray3 float) : Prop :=
  ((0 <? to_min a box r)%float = true /\ (0 <? to_max a box r)%float = true) \/
  ((to_min a box r <? 0)%float = true /\ (to_max a box r <? 0)%float = true).

Definition slab_finite (a : axis) (box : Box float) (r : Ray3 float) : bool :=
  f_finite (t_near a box r) && f_finite (t_far a box r).

Definition slab_not_nan (a : axis) (box : Box float) (r : Ray3 float) : bool :=
  f_not_nan (t_near a box r) && f_not_nan (t_far a box r).

(** More inputs used below. *)
Definition ray_through_box : Ray3 float :=
  mkRay3 (mkVec3 0.5 0.5 (-1))%float (mkVec3 0 0 1)%float
         (mkVec3 infinity infinity 1)%float (false, false, false) 0%float 100%float.

Definition ray_in_face : Ray3 float :=
  mkRay3 (mkVec3 0 (-5) (-1))%float (mkVec3 0 0 1)%float
         (mkVec3 infinity infinity 1)%float (false, false, false) 0%float 100%float.

Definition ray_wrong_sign : Ray3 float :=
  mkRay3 (mkVec3 0.5 0.5 (-1))%float (mkVec3 (-0) 0 1)%float
         (mkVec3 neg_infinity infinity 1)%float (false, false, false)
         0%float 100%float.

Definition huge_box : Box float :=
  mkBox (mkVec3 0 (-0x1p1000) (-0x1p1000))%float
        (mkVec3 1 0x1p1000 0x1p1000)%float.

Definition ray_beside_huge_box : Ray3 float :=
  mkRay3 (mkVec3 5 0 0)%float (mkVec3 0 0x1p-1000 0x1p-1000)%float
         (mkVec3 infinity 0x1p1000 0x1p1000)%float (false, false, false)
         0%float 100%float.

Definition far_box : Box float :=
  mkBox (mkVec3 1 1 1)%float (mkVec3 2 2 2)%float.

Definition short_ray : Ray3 float :=
  mkRay3 (mkVec3 0 0 0)%float (mkVec3 1 1 1)%float (mkVec3 1 1 1)%float
         (false, false, false) 0%float 0.5%float.

Definition far_box_Q : Box Q :=
  mkBox (mkVec3 1 1 1)%Q (mkVec3 2 2 2)%Q.

Definition short_ray_Q : Ray3 Q :=
  mkRay3 (mkVec3 0 0 0)%Q (mkVec3 1 1 1)%Q (mkVec3 1 1 1)%Q
         (false, false, false) 0%Q (1 # 2)%Q.

(** ** Notions used to state what the tracers and the ray/box test do *)

(** A functor that is shown the image of every cell under a map of the
    grid. *)
Definition on_cells {St : Type} (g : Vec3Ix -> Vec3Ix) (f : TraceFunctor St)
    : TraceFunctor St :=
  fun s x y z => f s (c0 (g (V3 x y z))) (c1 (g (V3 x y z))) (c2 (g (V3 x y z))).

(** Mirroring the axes chosen by [e] (components 1 or -1), then shifting by
    [t]. *)
Definition flip_shift (e t c : Vec3Ix) : Vec3Ix :=
  V3 (c0 e * c0 c + c0 t) (c1 e * c1 c + c1 t) (c2 e * c2 c + c2 t).

Definition unit_signs (e : Vec3Ix) : Prop :=
  (c0 e = 1 \/ c0 e = -1) /\ (c1 e = 1 \/ c1 e = -1) /\ (c2 e = 1 \/ c2 e = -1).

(** A cell within the box spanned by two cells. *)
Definition between (p q x : Z) : Prop := Z.min p q <= x <= Z.max p q.

Definition in_hull (a b c : Vec3Ix) : Prop :=
  between (c0 a) (c0 b) (c0 c) /\ between (c1 a) (c1 b) (c1 c) /\
  between (c2 a) (c2 b) (c2 c).

(** Cell [c], shown as number [k] on the way from [a] to [b], lies within
    half a cell of the straight segment on every axis: with [D] the Chebyshev
    distance, the segment is at [a + k * (b - a) / D] then. *)
Definition near_line (a b : Vec3Ix) (k : Z) (c : Vec3Ix) : Prop :=
  let D := chebyshev a b in
  Z.abs (2 * D * (c0 c - c0 a) - 2 * k * delta0 a b) <= D /\
  Z.abs (2 * D * (c1 c - c1 a) - 2 * k * delta1 a b) <= D /\
  Z.abs (2 * D * (c2 c - c2 a) - 2 * k * delta2 a b) <= D.

(** The cells the 2-D tracer shows to a functor that never stops it. *)
Definition trace_cells2 (fuel : nat) (start_pos end_pos : Vec2Ix) : list Vec2Ix :=
  state_of (bresenham_trace2 fuel start_pos end_pos recording2 []).

(** A 2-D functor that counts its calls and stops on the second. *)
Definition stop_at_second2 : TraceFunctor2 nat :=
  fun n _ _ _ => (S n, Nat.ltb (S n) 2).

(** A cell as [logged2] writes it down when the flag is [false]. *)
Definition unflagged (c : Vec2Ix) : Vec2Ix * bool := (c, false).

(** A grid that wraps around after two cells on x and is one cell thick on
    y and z: cells two apart on x share their counter. *)
Definition folded_grid : ScrollGrid3 :=
  {| grid_to_mem := fun x y z => x mod 2 |}.

(** The point of a ray at parameter [t], and a point within a box, on exact
    rationals. *)
Definition ray_point (r : Ray3 Q) (t : Q) : Vec3 Q :=
  mkVec3 (vx (origin r) + t * vx (direction r))%Q
         (vy (origin r) + t * vy (direction r))%Q
         (vz (origin r) + t * vz (direction r))%Q.

Definition in_box_Q (box : Box Q) (p : Vec3 Q) : Prop :=
  forall a : axis, (comp a (box_min box) <= comp a p <= comp a (box_max box))%Q.

(** The fields of a ray as the data model relates them, for a direction with
    no zero component: the reciprocal direction is the reciprocal of the
    direction, and a sign bit is set exactly when the direction is negative
    on its axis. *)
Definition ray_well_formed_Q (r : Ray3 Q) : Prop :=
  forall a : axis,
    ~ (comp a (direction r) == 0)%Q /\
    (comp a (invdir r) == / comp a (direction r))%Q /\
    sign_bit a r = s_lt (comp a (direction r)) 0%Q.

(** More inputs: the ray from the origin along (1,1,1) with segment
    [0, 10], a box that overlaps [far_box_Q], and a ray in double precision
    whose origin has NaN for its x coordinate. *)
Definition long_ray_Q : Ray3 Q :=
  mkRay3 (mkVec3 0 0 0)%Q (mkVec3 1 1 1)%Q (mkVec3 1 1 1)%Q
         (false, false, false) 0%Q 10%Q.

Definition mid_box_Q : Box Q :=
  mkBox (mkVec3 (3 # 2) (3 # 2) (3 # 2))%Q (mkVec3 3 3 3)%Q.

Definition ray_nan_origin : Ray3 float :=
  mkRay3 (mkVec3 nan 5 5)%float (mkVec3 0 0 1)%float
         (mkVec3 infinity infinity 1)%float (false, false, false) 0%float 100%float.

(** * Properties *)

(** ** Machine integers *)

Lemma to_int_id (z : Z) : fits_int z -> to_int z = z.
Proof.
  unfold fits_int, to_int, int_min, int_max. intros H.
  rewrite Z.mod_small; lia.
Qed.

Lemma to_int_fits (z : Z) : fits_int (to_int z).
Proof.
  unfold fits_int, to_int, int_min, int_max.
  pose proof (Z.mod_pos_bound (z + 2 ^ 31) (2 ^ 32)). lia.
Qed.

Lemma to_int_wrap64 (z : Z) : to_int (wrap64 z) = to_int z.
Proof.
  unfold to_int, wrap64.
  replace (2 ^ 64) with (2 ^ 32 * 2 ^ 32) by reflexivity.
  replace ((z + 2 ^ 63) mod (2 ^ 32 * 2 ^ 32) - 2 ^ 63 + 2 ^ 31)
    with ((z + 2 ^ 31) + (2 ^ 63 - 2 ^ 31)
          - 2 ^ 32 * (2 ^ 32 * ((z + 2 ^ 63) / (2 ^ 32 * 2 ^ 32)))
          - 2 ^ 31 * 2 ^ 32 + 2 ^ 31).
  2:{ pose proof (Z.div_mod (z + 2 ^ 63) (2 ^ 32 * 2 ^ 32)). lia. }
  f_equal.
  replace (z + 2 ^ 31 + (2 ^ 63 - 2 ^ 31)
           - 2 ^ 32 * (2 ^ 32 * ((z + 2 ^ 63) / (2 ^ 32 * 2 ^ 32)))
           - 2 ^ 31 * 2 ^ 32 + 2 ^ 31)
    with (z + 2 ^ 31
          + (2 ^ 31 - 2 ^ 31 - 2 ^ 32 * ((z + 2 ^ 63) / (2 ^ 32 * 2 ^ 32))) * 2 ^ 32)
    by lia.
  apply Z.mod_add. lia.
Qed.

Lemma sign_abs_exact (d : Z) :
  fits_int d -> int_min < d -> sign_abs d = (Z.sgn d, Z.abs d).
Proof.
  intros H Hm. unfold sign_abs, int_neg.
  destruct (Z.ltb_spec 0 d); [f_equal; lia|].
  destruct (Z.ltb_spec d 0).
  - rewrite to_int_id; [f_equal; lia | unfold fits_int, int_min, int_max in *; lia].
  - f_equal; lia.
Qed.

(** ** The three loops are one loop *)

Section OneLoop.
Context {St : Type} (f : TraceFunctor St).
Variables (e : Z) (sx sy sz ax ay az : Z).

Lemma loop_y_as_x (fuel : nat) : forall decx decz x y z s,
  loop_y f e sx sy sz ax ay az fuel decx decz x y z s =
  loop_x (swap_xy f) e sy sx sz ay ax az fuel decx decz y x z s.
Proof.
  induction fuel as [|n IH]; intros; simpl; [reflexivity|].
  unfold swap_xy at 1.
  destruct (f s x y z) as [s1 go]. destruct go; simpl; [|reflexivity].
  destruct (y =? e); [reflexivity|].
  destruct (bres_step decx ay x sx), (bres_step decz ay z sz). apply IH.
Qed.

Lemma loop_z_as_x (fuel : nat) : forall decx decy x y z s,
  loop_z f e sx sy sz ax ay az fuel decx decy x y z s =
  loop_x (rot_zxy f) e sz sx sy az ax ay fuel decx decy z x y s.
Proof.
  induction fuel as [|n IH]; intros; simpl; [reflexivity|].
  unfold rot_zxy at 1.
  destruct (f s x y z) as [s1 go]. destruct go; simpl; [|reflexivity].
  destruct (z =? e); [reflexivity|].
  destruct (bres_step decx az x sx), (bres_step decy az y sy). apply IH.
Qed.
End OneLoop.

(** ** A run is its recorded path shown to the functor *)

Lemma prepend_app (l1 l2 : list Vec3Ix) (o : outcome (list Vec3Ix)) :
  prepend (l1 ++ l2) o = prepend l1 (prepend l2 o).
Proof. destruct o; simpl; now rewrite app_assoc. Qed.

Lemma prepend_nil (o : outcome (list Vec3Ix)) : prepend [] o = o.
Proof. now destruct o. Qed.

Section Replay.
Variables (e su sv sw au av aw : Z).

Lemma loop_x_recording_prefix (fuel : nat) : forall decv decw u v w l,
  loop_x recording e su sv sw au av aw fuel decv decw u v w l =
  prepend l (loop_x recording e su sv sw au av aw fuel decv decw u v w []).
Proof.
  induction fuel as [|n IH]; intros; simpl.
  - now rewrite app_nil_r.
  - destruct (u =? e); simpl; [reflexivity|].
    destruct (bres_step decv au v sv), (bres_step decw au w sw).
    rewrite IH. rewrite (IH _ _ _ _ _ [V3 u v w]).
    now rewrite <- prepend_app.
Qed.

Lemma loop_x_replay {St : Type} (f : TraceFunctor St) (fuel : nat) :
  forall decv decw u v w s,
  loop_x f e su sv sw au av aw fuel decv decw u v w s =
  replay f s (loop_x recording e su sv sw au av aw fuel decv decw u v w []).
Proof.
  induction fuel as [|n IH]; intros; simpl; [reflexivity|].
  destruct (u =? e) eqn:E; simpl.
  - destruct (f s u v w) as [s1 go]. now destruct go.
  - destruct (bres_step decv au v sv) as [dv1 v1],
             (bres_step decw au w sw) as [dw1 w1].
    rewrite loop_x_recording_prefix.
    destruct (f s u v w) as [s1 go] eqn:F.
    destruct go; simpl.
    + rewrite IH.
      destruct (loop_x recording e su sv sw au av aw n _ _ _ _ _ []);
        simpl; rewrite F; reflexivity.
    + destruct (loop_x recording e su sv sw au av aw n _ _ _ _ _ []);
        simpl; rewrite F; reflexivity.
Qed.
End Replay.

Lemma feed_swap_xy {St : Type} (f : TraceFunctor St) (s : St) (p : list Vec3Ix) :
  feed (swap_xy f) s p = feed f s (map swap_cell p).
Proof.
  revert s; induction p as [|c p IH]; intros; simpl; [reflexivity|].
  unfold swap_xy at 1. destruct (f s (c1 c) (c0 c) (c2 c)) as [s1 go].
  destruct go; [apply IH | reflexivity].
Qed.

Lemma feed_rot_zxy {St : Type} (f : TraceFunctor St) (s : St) (p : list Vec3Ix) :
  feed (rot_zxy f) s p = feed f s (map rot_cell p).
Proof.
  revert s; induction p as [|c p IH]; intros; simpl; [reflexivity|].
  unfold rot_zxy at 1. destruct (f s (c1 c) (c2 c) (c0 c)) as [s1 go].
  destruct go; [apply IH | reflexivity].
Qed.

Lemma replay_swap_xy {St : Type} (f : TraceFunctor St) (s : St) o :
  replay (swap_xy f) s o =
  replay f s (map_outcome (map swap_cell) o).
Proof. destruct o; simpl; now rewrite feed_swap_xy. Qed.

Lemma replay_rot_zxy {St : Type} (f : TraceFunctor St) (s : St) o :
  replay (rot_zxy f) s o =
  replay f s (map_outcome (map rot_cell) o).
Proof. destruct o; simpl; now rewrite feed_rot_zxy. Qed.

Lemma replay_recording (l : list Vec3Ix) o : replay recording l o = prepend l o.
Proof.
  assert (H : forall p l, feed recording l p = (l ++ p, true)).
  { induction p as [|c p IH]; intros; simpl.
    - now rewrite app_nil_r.
    - rewrite IH. rewrite <- app_assoc. now destruct c. }
  destruct o; simpl; now rewrite H.
Qed.

Section ReplayYZ.
Variables (e sx sy sz ax ay az : Z).

Lemma loop_y_recording (fuel : nat) (decx decz x y z : Z) :
  loop_y recording e sx sy sz ax ay az fuel decx decz x y z [] =
  map_outcome (map swap_cell)
    (loop_x recording e sy sx sz ay ax az fuel decx decz y x z []).
Proof.
  rewrite loop_y_as_x, loop_x_replay, replay_swap_xy, replay_recording.
  apply prepend_nil.
Qed.

Lemma loop_z_recording (fuel : nat) (decx decy x y z : Z) :
  loop_z recording e sx sy sz ax ay az fuel decx decy x y z [] =
  map_outcome (map rot_cell)
    (loop_x recording e sz sx sy az ax ay fuel decx decy z x y []).
Proof.
  rewrite loop_z_as_x, loop_x_replay, replay_rot_zxy, replay_recording.
  apply prepend_nil.
Qed.

Lemma loop_y_replay {St : Type} (f : TraceFunctor St) (fuel : nat)
    (decx decz x y z : Z) (s : St) :
  loop_y f e sx sy sz ax ay az fuel decx decz x y z s =
  replay f s (loop_y recording e sx sy sz ax ay az fuel decx decz x y z []).
Proof.
  rewrite loop_y_recording, loop_y_as_x, loop_x_replay.
  apply replay_swap_xy.
Qed.

Lemma loop_z_replay {St : Type} (f : TraceFunctor St) (fuel : nat)
    (decx decy x y z : Z) (s : St) :
  loop_z f e sx sy sz ax ay az fuel decx decy x y z s =
  replay f s (loop_z recording e sx sy sz ax ay az fuel decx decy x y z []).
Proof.
  rewrite loop_z_recording, loop_z_as_x, loop_x_replay.
  apply replay_rot_zxy.
Qed.
End ReplayYZ.

(** Every run of the tracer is the path it would record, shown to the
    functor cell by cell until the functor declines. *)
Lemma bresenham_trace_replay {St : Type} (fuel : nat) (a b : Vec3Ix)
    (f : TraceFunctor St) (s : St) :
  bresenham_trace fuel a b f s =
  replay f s (bresenham_trace fuel a b recording []).
Proof.
  unfold bresenham_trace.
  destruct (sign_abs (to_int (wrap64 (c0 b - c0 a)))) as [sx dx].
  destruct (sign_abs (to_int (wrap64 (c1 b - c1 a)))) as [sy dy].
  destruct (sign_abs (to_int (wrap64 (c2 b - c2 a)))) as [sz dz].
  destruct ((dy <=? dx) && (dz <=? dx)); [apply loop_x_replay|].
  destruct ((dx <=? dy) && (dz <=? dy)); [apply loop_y_replay|].
  destruct ((dx <=? dz) && (dy <=? dz)); [apply loop_z_replay|].
  reflexivity.
Qed.

(** ** Arithmetic of the decision variable *)

Section BresArith.
Variables (D d : Z).
Hypothesis HD : 0 < D.
Hypothesis Hd : 0 <= d <= D.

Lemma bres_dec_mod (i : Z) :
  bres_dec D d i = 2 * d - 2 * D + (2 * i * d + D) mod (2 * D).
Proof using HD Hd.
  unfold bres_dec, bres_k.
  pose proof (Z.div_mod (2 * i * d + D) (2 * D)). lia.
Qed.

Lemma bres_dec_range (i : Z) : 2 * d - 2 * D <= bres_dec D d i < 2 * d.
Proof using HD Hd.
  rewrite bres_dec_mod.
  pose proof (Z.mod_pos_bound (2 * i * d + D) (2 * D)). lia.
Qed.

Lemma bres_k_step (i : Z) :
  bres_k D d (i + 1) =
  bres_k D d i + (if 0 <=? bres_dec D d i then 1 else 0).
Proof using HD Hd.
  pose proof (bres_dec_mod i) as Hm.
  pose proof (Z.mod_pos_bound (2 * i * d + D) (2 * D)) as Hr.
  pose proof (Z.div_mod (2 * i * d + D) (2 * D)) as Hq.
  unfold bres_k at 1. symmetry.
  destruct (Z.leb_spec 0 (bres_dec D d i)).
  - apply Z.div_unique with (r := (2 * i * d + D) mod (2 * D) + 2 * d - 2 * D);
      unfold bres_k; lia.
  - apply Z.div_unique with (r := (2 * i * d + D) mod (2 * D) + 2 * d);
      unfold bres_k; lia.
Qed.

Lemma bres_dec_step (i : Z) :
  bres_dec D d (i + 1) =
  (if 0 <=? bres_dec D d i then bres_dec D d i - 2 * D else bres_dec D d i)
  + 2 * d.
Proof using HD Hd.
  unfold bres_dec at 1. rewrite bres_k_step.
  unfold bres_dec. destruct (0 <=? _); lia.
Qed.

Lemma bres_k_0 : bres_k D d 0 = 0.
Proof using HD Hd. unfold bres_k. apply Z.div_small. lia. Qed.

Lemma bres_k_last : bres_k D d D = d.
Proof using HD Hd.
  unfold bres_k. symmetry. apply Z.div_unique with (r := D); lia.
Qed.

Lemma bres_k_mono (i j : Z) : i <= j -> bres_k D d i <= bres_k D d j.
Proof using HD Hd.
  intros. unfold bres_k. apply Z.div_le_mono; nia.
Qed.

Lemma bres_k_bounds (i : Z) : 0 <= i <= D -> 0 <= bres_k D d i <= d.
Proof using HD Hd.
  intros. pose proof (bres_k_mono 0 i). pose proof (bres_k_mono i D).
  rewrite bres_k_0 in *. rewrite bres_k_last in *. lia.
Qed.
End BresArith.

Lemma bres_k_self (D i : Z) : 0 < D -> bres_k D D i = i.
Proof.
  intros. unfold bres_k. symmetry. apply Z.div_unique with (r := D); lia.
Qed.

Lemma bres_k_zero (D i : Z) : bres_k D 0 i = 0.
Proof.
  unfold bres_k. destruct (Z.eq_dec D 0) as [->|].
  - apply Z.div_0_r.
  - rewrite Z.mul_0_r, Z.add_0_l.
    destruct (Z.lt_trichotomy D 0) as [?|[?|?]]; [|lia|].
    + replace (2 * D) with (- (2 * - D)) by lia.
      replace D with (- (- D)) at 1 by lia.
      rewrite Zdiv_opp_opp. apply Z.div_small. lia.
    + apply Z.div_small. lia.
Qed.

Lemma zrange_cons (i : Z) (n : nat) : zrange i (S n) = i :: zrange (i + 1) n.
Proof.
  unfold zrange. simpl. f_equal; [lia|].
  rewrite <- seq_shift, map_map. apply map_ext. intros; lia.
Qed.

Lemma zrange_length (i : Z) (n : nat) : length (zrange i n) = n.
Proof. unfold zrange. now rewrite length_map, length_seq. Qed.

Lemma zrange_nth (i : Z) (n k : nat) (dflt : Z) :
  (k < n)%nat -> nth k (zrange i n) dflt = i + Z.of_nat k.
Proof.
  intros. unfold zrange.
  rewrite nth_indep with (d' := i + Z.of_nat 0)
    by now rewrite length_map, length_seq.
  rewrite (map_nth (fun j => i + Z.of_nat j)), seq_nth by assumption.
  reflexivity.
Qed.

(** ** The X loop draws the line *)

(** One secondary axis through one iteration, when nothing overflows. *)
Lemma bres_step_exact (D d c s i : Z) :
  0 < D <= 2 ^ 30 - 1 -> 0 <= d <= D -> -1 <= s <= 1 -> 0 <= i < D ->
  fits_int c -> fits_int (c + s * d) ->
  let (dec1, c1) := bres_step (bres_dec D d i) (2 * D) (c + s * bres_k D d i) s in
  int_add dec1 (2 * d) = bres_dec D d (i + 1) /\
  c1 = c + s * bres_k D d (i + 1).
Proof.
  intros HD Hd Hs Hi Hc Hcd.
  pose proof (bres_dec_range D d (proj1 HD) Hd i) as Hr.
  pose proof (bres_dec_range D d (proj1 HD) Hd (i + 1)) as Hr1.
  pose proof (bres_dec_step D d (proj1 HD) Hd i) as Hstep.
  pose proof (bres_k_step D d (proj1 HD) Hd i) as Hk.
  pose proof (bres_k_bounds D d (proj1 HD) Hd i ltac:(lia)) as Hb.
  pose proof (bres_k_bounds D d (proj1 HD) Hd (i + 1) ltac:(lia)) as Hb1.
  assert (F : forall z, - 2 ^ 31 <= z <= 2 ^ 31 - 1 -> to_int z = z)
    by (intros; now apply to_int_id).
  unfold fits_int, int_min, int_max in *.
  unfold bres_step, int_add, int_sub.
  destruct (0 <=? bres_dec D d i).
  - rewrite Hk in Hb1 |- *.
    rewrite (F (bres_dec D d i - 2 * D)) by lia.
    rewrite (F (bres_dec D d i - 2 * D + 2 * d)) by lia.
    rewrite (F (c + s * bres_k D d i + s)) by nia.
    split; lia.
  - rewrite Hk, Z.add_0_r.
    rewrite (F (bres_dec D d i + 2 * d)) by lia.
    split; lia.
Qed.

Section LoopExact.
Variables (u0 v0 w0 su sv sw D dv dw : Z).
Hypothesis HD : 0 < D <= 2 ^ 30 - 1.
Hypothesis Hsu : su = 1 \/ su = -1.
Hypothesis Hsv : -1 <= sv <= 1.
Hypothesis Hsw : -1 <= sw <= 1.
Hypothesis Hdv : 0 <= dv <= D.
Hypothesis Hdw : 0 <= dw <= D.
Hypothesis Hu0 : fits_int u0.
Hypothesis Hu1 : fits_int (u0 + su * D).
Hypothesis Hv0 : fits_int v0.
Hypothesis Hv1 : fits_int (v0 + sv * dv).
Hypothesis Hw0 : fits_int w0.
Hypothesis Hw1 : fits_int (w0 + sw * dw).

Lemma loop_x_exact (n : nat) : forall i l,
  0 <= i <= D -> D - i < Z.of_nat n ->
  loop_x recording (u0 + su * D) su sv sw (2 * D) (2 * dv) (2 * dw) n
         (bres_dec D dv i) (bres_dec D dw i)
         (u0 + su * i) (v0 + sv * bres_k D dv i) (w0 + sw * bres_k D dw i) l
  = Finished (l ++ map (uvw_cell u0 v0 w0 su sv sw D dv dw)
                     (zrange i (S (Z.to_nat (D - i))))).
Proof.
  induction n as [|n IH]; intros i l Hi Hn; [lia|].
  cbn [loop_x recording negb].
  destruct (Z.eqb_spec (u0 + su * i) (u0 + su * D)) as [E|E].
  - assert (i = D) by nia. subst i.
    rewrite Z.sub_diag. change (Z.to_nat 0) with O.
    rewrite zrange_cons. reflexivity.
  - assert (Hlt : 0 <= i < D) by (split; [lia|]; destruct (Z.eq_dec i D); [subst; lia|lia]).
    pose proof (bres_step_exact D dv v0 sv i HD Hdv Hsv Hlt Hv0 Hv1) as Sv.
    pose proof (bres_step_exact D dw w0 sw i HD Hdw Hsw Hlt Hw0 Hw1) as Sw.
    destruct (bres_step (bres_dec D dv i) _ _ _) as [decv1 v1].
    destruct (bres_step (bres_dec D dw i) _ _ _) as [decw1 w1].
    destruct Sv as [-> ->], Sw as [-> ->].
    assert (Hx : int_add (u0 + su * i) su = u0 + su * (i + 1)).
    { unfold int_add. rewrite to_int_id; [lia|].
      unfold fits_int, int_min, int_max in *. nia. }
    rewrite Hx, IH by lia.
    replace (Z.to_nat (D - i)) with (S (Z.to_nat (D - (i + 1)))) by lia.
    rewrite (zrange_cons i). cbn [map]. rewrite <- app_assoc. reflexivity.
Qed.
End LoopExact.

Lemma preamble_exact (a b : Z) :
  Z.abs (b - a) <= 2 ^ 30 - 1 ->
  sign_abs (to_int (wrap64 (b - a))) = (Z.sgn (b - a), Z.abs (b - a)).
Proof.
  intros H. rewrite to_int_wrap64.
  assert (F : fits_int (b - a)) by (unfold fits_int, int_min, int_max; lia).
  rewrite to_int_id by assumption.
  apply sign_abs_exact; [assumption | unfold int_min; lia].
Qed.

(** The X loop started as [bresenham_trace] starts it, on exact endpoints. *)
Lemma loop_x_line (u0 v0 w0 du dv dw : Z) (fuel : nat) :
  0 < Z.abs du <= 2 ^ 30 - 1 ->
  Z.abs dv <= Z.abs du -> Z.abs dw <= Z.abs du ->
  fits_int u0 -> fits_int (u0 + du) ->
  fits_int v0 -> fits_int (v0 + dv) ->
  fits_int w0 -> fits_int (w0 + dw) ->
  (Z.to_nat (Z.abs du) < fuel)%nat ->
  loop_x recording (u0 + du) (Z.sgn du) (Z.sgn dv) (Z.sgn dw)
         (int_mul 2 (Z.abs du)) (int_mul 2 (Z.abs dv)) (int_mul 2 (Z.abs dw)) fuel
         (int_sub (int_mul 2 (Z.abs dv)) (Z.abs du))
         (int_sub (int_mul 2 (Z.abs dw)) (Z.abs du)) u0 v0 w0 []
  = Finished (map (uvw_cell u0 v0 w0 (Z.sgn du) (Z.sgn dv) (Z.sgn dw)
                            (Z.abs du) (Z.abs dv) (Z.abs dw))
                  (zrange 0 (S (Z.to_nat (Z.abs du))))).
Proof.
  intros HD Hv Hw Fu0 Fu1 Fv0 Fv1 Fw0 Fw1 Hfuel.
  assert (F : forall z, - 2 ^ 31 <= z <= 2 ^ 31 - 1 -> to_int z = z)
    by (intros; now apply to_int_id).
  unfold int_mul, int_sub.
  rewrite (F (2 * Z.abs du)), (F (2 * Z.abs dv)), (F (2 * Z.abs dw)) by lia.
  rewrite (F (2 * Z.abs dv - Z.abs du)), (F (2 * Z.abs dw - Z.abs du)) by lia.
  pose proof (bres_k_0 (Z.abs du) (Z.abs dv) (proj1 HD) ltac:(lia)) as Kv.
  pose proof (bres_k_0 (Z.abs du) (Z.abs dw) (proj1 HD) ltac:(lia)) as Kw.
  pose proof (loop_x_exact u0 v0 w0 (Z.sgn du) (Z.sgn dv) (Z.sgn dw)
                (Z.abs du) (Z.abs dv) (Z.abs dw)) as L.
  specialize (L HD ltac:(lia) ltac:(lia) ltac:(lia) ltac:(lia) ltac:(lia) Fu0).
  replace (u0 + Z.sgn du * Z.abs du) with (u0 + du) in L by lia.
  replace (v0 + Z.sgn dv * Z.abs dv) with (v0 + dv) in L by lia.
  replace (w0 + Z.sgn dw * Z.abs dw) with (w0 + dw) in L by lia.
  specialize (L Fu1 Fv0 Fv1 Fw0 Fw1 fuel 0 [] ltac:(lia) ltac:(lia)).
  unfold bres_dec in L. rewrite Kv, Kw in L.
  replace (2 * Z.abs dv - Z.abs du + 2 * 0 * Z.abs dv - 2 * 0 * Z.abs du)
    with (2 * Z.abs dv - Z.abs du) in L by lia.
  replace (2 * Z.abs dw - Z.abs du + 2 * 0 * Z.abs dw - 2 * 0 * Z.abs du)
    with (2 * Z.abs dw - Z.abs du) in L by lia.
  replace (u0 + Z.sgn du * 0) with u0 in L by lia.
  replace (v0 + Z.sgn dv * 0) with v0 in L by lia.
  replace (w0 + Z.sgn dw * 0) with w0 in L by lia.
  rewrite L. rewrite Z.sub_0_r. reflexivity.
Qed.

(** ** The tracer draws the line

    On endpoints that the [int] copies hold exactly, a budget larger than the
    Chebyshev distance lets the tracer finish, and the cells it shows are those
    of [line], whichever of the three loops runs. *)
Lemma bresenham_trace_line (fuel : nat) (a b : Vec3Ix) :
  int_exact a b -> (Z.to_nat (chebyshev a b) < fuel)%nat ->
  bresenham_trace fuel a b recording [] = Finished (line a b).
Proof.
  intros (Fa0 & Fa1 & Fa2 & Fb0 & Fb1 & Fb2 & HD) Hfuel.
  unfold line, bresenham_trace.
  unfold chebyshev, delta0, delta1, delta2 in *.
  destruct a as [x y z], b as [ex ey ez]; cbn [c0 c1 c2] in *.
  rewrite !preamble_exact by lia.
  rewrite !to_int_id by assumption.
  set (dx := ex - x) in *. set (dy := ey - y) in *. set (dz := ez - z) in *.
  replace ex with (x + dx) in * by (subst dx; lia).
  replace ey with (y + dy) in * by (subst dy; lia).
  replace ez with (z + dz) in * by (subst dz; lia).
  clearbody dx dy dz.
  destruct (Z.eq_dec (Z.max (Z.abs dx) (Z.max (Z.abs dy) (Z.abs dz))) 0) as [Z0|NZ].
  - (* start = end *)
    assert (dx = 0) by lia. assert (dy = 0) by lia. assert (dz = 0) by lia.
    subst dx dy dz. cbn [Z.abs Z.sgn Z.leb Z.compare andb Z.max Z.to_nat].
    destruct fuel as [|n]; [lia|]. cbn [loop_x recording negb app].
    rewrite Z.add_0_r, Z.eqb_refl.
    rewrite zrange_cons. cbn [map zrange seq].
    unfold line_cell, chebyshev, delta0, delta1, delta2; cbn [c0 c1 c2].
    rewrite !Z.add_0_r, !Z.sub_diag. cbn [Z.sgn Z.mul].
    rewrite !Z.add_0_r. reflexivity.
  - assert (Hcell : forall D i, D = Z.max (Z.abs dx) (Z.max (Z.abs dy) (Z.abs dz)) ->
              line_cell (V3 x y z) (V3 (x + dx) (y + dy) (z + dz)) i =
              V3 (x + Z.sgn dx * bres_k D (Z.abs dx) i)
                 (y + Z.sgn dy * bres_k D (Z.abs dy) i)
                 (z + Z.sgn dz * bres_k D (Z.abs dz) i)).
    { intros D i ->. unfold line_cell, chebyshev, delta0, delta1, delta2.
      cbn [c0 c1 c2].
      replace (x + dx - x) with dx by lia.
      replace (y + dy - y) with dy by lia.
      replace (z + dz - z) with dz by lia. reflexivity. }
    repeat match goal with
           | |- context [Z.leb ?p ?q] => destruct (Z.leb_spec p q)
           end; cbn [andb]; try (exfalso; lia).
    all: first
      [ (* X drives *)
        rewrite loop_x_line by (assumption || lia);
        replace (Z.max (Z.abs dx) (Z.max (Z.abs dy) (Z.abs dz)))
          with (Z.abs dx) by lia;
        f_equal; apply map_ext; intros i;
        rewrite (Hcell (Z.abs dx)) by lia; unfold uvw_cell;
        rewrite bres_k_self by lia; reflexivity
      | (* Y drives *)
        rewrite loop_y_recording, loop_x_line by (assumption || lia);
        cbn [map_outcome];
        replace (Z.max (Z.abs dx) (Z.max (Z.abs dy) (Z.abs dz)))
          with (Z.abs dy) by lia;
        f_equal; rewrite map_map; apply map_ext; intros i;
        rewrite (Hcell (Z.abs dy)) by lia; unfold uvw_cell, swap_cell;
        cbn [c0 c1 c2]; rewrite bres_k_self by lia; reflexivity
      | (* Z drives *)
        rewrite loop_z_recording, loop_x_line by (assumption || lia);
        cbn [map_outcome];
        replace (Z.max (Z.abs dx) (Z.max (Z.abs dy) (Z.abs dz)))
          with (Z.abs dz) by lia;
        f_equal; rewrite map_map; apply map_ext; intros i;
        rewrite (Hcell (Z.abs dz)) by lia; unfold uvw_cell, rot_cell;
        cbn [c0 c1 c2]; rewrite bres_k_self by lia; reflexivity ].
Qed.

(** ** The shape of the line *)

Lemma chebyshev_nonneg (a b : Vec3Ix) : 0 <= chebyshev a b.
Proof. unfold chebyshev. lia. Qed.

Lemma chebyshev_sym (a b : Vec3Ix) : chebyshev b a = chebyshev a b.
Proof. unfold chebyshev, delta0, delta1, delta2. lia. Qed.

Lemma line_length (a b : Vec3Ix) :
  length (line a b) = S (Z.to_nat (chebyshev a b)).
Proof. unfold line. now rewrite length_map, zrange_length. Qed.

Lemma line_nth (a b dflt : Vec3Ix) (k : nat) :
  (k <= Z.to_nat (chebyshev a b))%nat ->
  nth k (line a b) dflt = line_cell a b (Z.of_nat k).
Proof.
  intros. unfold line.
  rewrite nth_indep with (d' := line_cell a b 0)
    by (rewrite length_map, zrange_length; lia).
  rewrite map_nth, zrange_nth by lia. reflexivity.
Qed.

(** Along an axis of distance [d], the line starts at offset 0 and ends at
    offset [d]; this also holds on the empty line, where [D = 0]. *)
Lemma bres_k_first (D d : Z) : 0 <= d <= D -> bres_k D d 0 = 0.
Proof.
  intros. destruct (Z.eq_dec D 0) as [->|].
  - unfold bres_k. apply Z.div_0_r.
  - apply bres_k_0; lia.
Qed.

Lemma bres_k_end (D d : Z) : 0 <= d <= D -> bres_k D d D = d.
Proof.
  intros. destruct (Z.eq_dec D 0) as [->|].
  - unfold bres_k. rewrite Z.div_0_r. lia.
  - apply bres_k_last; lia.
Qed.

Lemma line_cell_first (a b : Vec3Ix) : line_cell a b 0 = a.
Proof.
  unfold line_cell. rewrite !bres_k_first by (unfold chebyshev; lia).
  destruct a; cbn [c0 c1 c2]. f_equal; lia.
Qed.

Lemma line_cell_last (a b : Vec3Ix) : line_cell a b (chebyshev a b) = b.
Proof.
  unfold line_cell. rewrite !bres_k_end by (unfold chebyshev; lia).
  unfold delta0, delta1, delta2. destruct a, b; cbn [c0 c1 c2]. f_equal; lia.
Qed.

Lemma bres_k_succ (D d i : Z) :
  0 < D -> 0 <= d <= D ->
  bres_k D d (i + 1) = bres_k D d i \/ bres_k D d (i + 1) = bres_k D d i + 1.
Proof.
  intros HD Hd. rewrite (bres_k_step D d HD Hd i).
  destruct (0 <=? bres_dec D d i); lia.
Qed.

Lemma axis_step (c s k k' : Z) :
  -1 <= s <= 1 -> k' = k \/ k' = k + 1 ->
  Z.abs (c + s * k' - (c + s * k)) <= 1.
Proof.
  intros Hs [->| ->].
  - replace (c + s * k - (c + s * k)) with 0 by ring. lia.
  - replace (c + s * (k + 1) - (c + s * k)) with s by ring. lia.
Qed.

Lemma axis_drive (c d i : Z) :
  d <> 0 -> Z.abs (c + Z.sgn d * (i + 1) - (c + Z.sgn d * i)) = 1.
Proof.
  intros. replace (c + Z.sgn d * (i + 1) - (c + Z.sgn d * i)) with (Z.sgn d) by ring.
  lia.
Qed.

Lemma line_cell_step (a b : Vec3Ix) (i : Z) :
  0 <= i < chebyshev a b ->
  one_step (line_cell a b i) (line_cell a b (i + 1)).
Proof.
  intros Hi. set (D := chebyshev a b) in *.
  assert (HD : 0 < D) by lia.
  assert (H0 : 0 <= Z.abs (delta0 a b) <= D) by (unfold D, chebyshev; lia).
  assert (H1 : 0 <= Z.abs (delta1 a b) <= D) by (unfold D, chebyshev; lia).
  assert (H2 : 0 <= Z.abs (delta2 a b) <= D) by (unfold D, chebyshev; lia).
  pose proof (axis_step (c0 a) (Z.sgn (delta0 a b)) _ _ ltac:(lia)
                (bres_k_succ D _ i HD H0)) as A0.
  pose proof (axis_step (c1 a) (Z.sgn (delta1 a b)) _ _ ltac:(lia)
                (bres_k_succ D _ i HD H1)) as A1.
  pose proof (axis_step (c2 a) (Z.sgn (delta2 a b)) _ _ ltac:(lia)
                (bres_k_succ D _ i HD H2)) as A2.
  assert (Hdrive : Z.abs (delta0 a b) = D \/ Z.abs (delta1 a b) = D \/
                   Z.abs (delta2 a b) = D) by (unfold D, chebyshev; lia).
  pose proof (bres_k_self D i HD) as S0.
  pose proof (bres_k_self D (i + 1) HD) as S1.
  unfold one_step, chebyshev. unfold delta0 at 1 2, delta1 at 1 2, delta2 at 1 2.
  unfold line_cell. fold D. cbn [c0 c1 c2].
  repeat split; try assumption.
  destruct Hdrive as [E|[E|E]].
  - pose proof (axis_drive (c0 a) (delta0 a b) i ltac:(lia)) as Dr.
    rewrite E, S0, S1. lia.
  - pose proof (axis_drive (c1 a) (delta1 a b) i ltac:(lia)) as Dr.
    rewrite E, S0, S1. lia.
  - pose proof (axis_drive (c2 a) (delta2 a b) i ltac:(lia)) as Dr.
    rewrite E, S0, S1. lia.
Qed.

Lemma line_first (a b : Vec3Ix) : hd_error (line a b) = Some a.
Proof.
  unfold line. rewrite zrange_cons. cbn [map hd_error].
  now rewrite line_cell_first.
Qed.

Lemma line_last (a b dflt : Vec3Ix) : last (line a b) dflt = b.
Proof.
  pose proof (line_length a b) as L.
  destruct (line a b) as [|c l] eqn:E; [discriminate|].
  rewrite <- E in *.
  rewrite <- (rev_involutive (line a b)).
  destruct (rev (line a b)) as [|c' l'] eqn:R.
  - apply (f_equal (@length _)) in R. rewrite length_rev, L in R. discriminate.
  - cbn [rev]. rewrite last_last.
    assert (H : nth 0 (rev (line a b)) dflt = c') by now rewrite R.
    rewrite rev_nth in H by lia.
    rewrite L in H. replace (S (Z.to_nat (chebyshev a b)) - 1)%nat
      with (Z.to_nat (chebyshev a b)) in H by lia.
    rewrite line_nth in H by lia.
    rewrite Z2Nat.id in H by apply chebyshev_nonneg.
    rewrite <- H. apply line_cell_last.
Qed.

Lemma line_steps (a b dflt : Vec3Ix) (k : nat) :
  (S k < length (line a b))%nat ->
  one_step (nth k (line a b) dflt) (nth (S k) (line a b) dflt).
Proof.
  rewrite line_length. intros H.
  rewrite !line_nth by lia.
  replace (Z.of_nat (S k)) with (Z.of_nat k + 1) by lia.
  apply line_cell_step. lia.
Qed.

Lemma int_exact_sym (a b : Vec3Ix) : int_exact a b -> int_exact b a.
Proof.
  unfold int_exact. rewrite (chebyshev_sym a b). tauto.
Qed.

Lemma trace_cells_line (fuel : nat) (a b : Vec3Ix) :
  int_exact a b -> (Z.to_nat (chebyshev a b) < fuel)%nat ->
  trace_cells fuel a b = line a b.
Proof.
  intros. unfold trace_cells. now rewrite bresenham_trace_line.
Qed.

(** The path of the 3-D tracer on exact endpoints: with enough budget the
    tracer returns, having shown Chebyshev distance plus one cells, the first
    being the start, the last the end, each one step from the one before. *)
Theorem bresenham_trace_path (fuel : nat) (a b : Vec3Ix) :
  int_exact a b -> (Z.to_nat (chebyshev a b) < fuel)%nat ->
  finished (bresenham_trace fuel a b recording []) = true /\
  Z.of_nat (length (trace_cells fuel a b)) = chebyshev a b + 1 /\
  hd_error (trace_cells fuel a b) = Some a /\
  last (trace_cells fuel a b) a = b /\
  (forall k dflt, (S k < length (trace_cells fuel a b))%nat ->
     one_step (nth k (trace_cells fuel a b) dflt)
              (nth (S k) (trace_cells fuel a b) dflt)).
Proof.
  intros He Hf. rewrite trace_cells_line, bresenham_trace_line by assumption.
  pose proof (chebyshev_nonneg a b).
  split; [reflexivity|].
  split; [rewrite line_length; lia|].
  split; [apply line_first|].
  split; [apply line_last|].
  intros. now apply line_steps.
Qed.

Lemma bresenham_trace_path_witness :
  int_exact (V3 0 0 0) (V3 3 1 0) /\
  finished (bresenham_trace 4 (V3 0 0 0) (V3 3 1 0) recording []) = true /\
  Z.of_nat (length (trace_cells 4 (V3 0 0 0) (V3 3 1 0))) = 4.
Proof.
  assert (E : int_exact (V3 0 0 0) (V3 3 1 0)).
  { unfold int_exact, fits_int, int_min, int_max, chebyshev, delta0, delta1, delta2.
    cbn [c0 c1 c2]. lia. }
  split; [exact E|].
  pose proof (bresenham_trace_path 4 (V3 0 0 0) (V3 3 1 0) E ltac:(vm_compute; lia))
    as (F & L & _).
  split; [exact F | exact L].
Defined.

(** The run from (0,0,0) to (3,1,0): X drives, four cells, and [y] steps
    once, on the way to x = 2. *)
Example bresenham_trace_run :
  bresenham_trace 4 (V3 0 0 0) (V3 3 1 0) recording [] =
  Finished [V3 0 0 0; V3 1 0 0; V3 2 1 0; V3 3 1 0].
Proof. reflexivity. Qed.

(** ** Early exit *)

Lemma feed_logged_stop {St : Type} (f : TraceFunctor St) :
  forall (p : list Vec3Ix) (k : nat) (s : St) (l : list Vec3Ix),
  (1 <= k <= length p)%nat ->
  answers f s (firstn k p) = repeat true (k - 1) ++ [false] ->
  exists s', feed (logged f) (s, l) p = ((s', l ++ firstn k p), false).
Proof.
  induction p as [|c p IH]; intros k s l Hk Ha; [simpl in Hk; lia|].
  destruct k as [|k]; [lia|].
  cbn [firstn answers] in Ha. cbn [feed]. unfold logged at 1. cbn [fst snd].
  destruct (f s (c0 c) (c1 c) (c2 c)) as [s1 go].
  replace (V3 (c0 c) (c1 c) (c2 c)) with c by now destruct c.
  destruct k as [|k].
  - cbn in Ha. injection Ha as ->. exists s1. now destruct p.
  - replace (S (S k) - 1)%nat with (S k) in Ha by lia.
    cbn [repeat app] in Ha. injection Ha as -> Ha.
    destruct (IH (S k) s1 (l ++ [c])) as [s' E].
    + simpl in Hk. lia.
    + now replace (S k - 1)%nat with k by lia.
    + exists s'. rewrite E. cbn [firstn]. now rewrite <- app_assoc.
Qed.

Lemma feed_logged {St : Type} (f : TraceFunctor St) (p : list Vec3Ix) :
  forall (s : St) (l : list Vec3Ix),
  fst (fst (feed (logged f) (s, l) p)) = fst (feed f s p) /\
  snd (feed (logged f) (s, l) p) = snd (feed f s p).
Proof.
  induction p as [|c p IH]; intros; cbn [feed]; [now split|].
  unfold logged at 1 3. cbn [fst snd].
  destruct (f s (c0 c) (c1 c) (c2 c)) as [s1 go].
  destruct go; [apply IH | now split].
Qed.

(** Recording the calls of a functor does not change its run. *)
Lemma bresenham_trace_logged {St : Type} (f : TraceFunctor St) (s : St)
    (l : list Vec3Ix) (fuel : nat) (a b : Vec3Ix) :
  map_outcome fst (bresenham_trace fuel a b (logged f) (s, l)) =
  bresenham_trace fuel a b f s.
Proof.
  rewrite (bresenham_trace_replay fuel a b f), (bresenham_trace_replay fuel a b (logged f)).
  destruct (bresenham_trace fuel a b recording []) as [p|p]; cbn [replay].
  - cbn [map_outcome]. f_equal. apply feed_logged.
  - destruct (feed_logged f p s l) as [E1 E2].
    destruct (feed (logged f) (s, l) p) as [[s1 l1] g1].
    destruct (feed f s p) as [s2 g2]. cbn [fst snd] in *. subst.
    now destruct g2.
Qed.

(** C9.  A functor that answers "stop" on its k-th call, and "go on" on the
    calls before, is called exactly [k] times by the 3-D tracer, on the first
    [k] cells of the path, and the tracer then returns; [k] may be any
    position on the path the uninterrupted tracer walks, whatever is left of
    that path.  The calls are counted by a record kept beside the functor,
    which leaves its run as it is. *)
Theorem bresenham_trace_early_exit {St : Type} (f : TraceFunctor St) (s : St)
    (fuel : nat) (a b : Vec3Ix) (k : nat) :
  (1 <= k <= length (trace_cells fuel a b))%nat ->
  answers f s (firstn k (trace_cells fuel a b)) = repeat true (k - 1) ++ [false] ->
  finished (bresenham_trace fuel a b (logged f) (s, [])) = true /\
  snd (state_of (bresenham_trace fuel a b (logged f) (s, [])))
    = firstn k (trace_cells fuel a b) /\
  length (snd (state_of (bresenham_trace fuel a b (logged f) (s, [])))) = k /\
  map_outcome fst (bresenham_trace fuel a b (logged f) (s, [])) =
    bresenham_trace fuel a b f s.
Proof.
  intros Hk Ha.
  assert (G : finished (bresenham_trace fuel a b (logged f) (s, [])) = true /\
              snd (state_of (bresenham_trace fuel a b (logged f) (s, [])))
                = firstn k (trace_cells fuel a b) /\
              length (snd (state_of (bresenham_trace fuel a b (logged f) (s, []))))
                = k).
  { destruct (feed_logged_stop f _ k s [] Hk Ha) as [s' E].
    rewrite bresenham_trace_replay. unfold trace_cells in *.
    destruct (bresenham_trace fuel a b recording []) as [p|p];
      cbn [state_of replay] in *; rewrite E; cbn [fst snd finished state_of app].
    all: split; [reflexivity|]; split; [reflexivity|];
      rewrite length_firstn; lia. }
  destruct G as (G1 & G2 & G3).
  split; [exact G1|]. split; [exact G2|]. split; [exact G3|].
  apply bresenham_trace_logged.
Qed.

Lemma bresenham_trace_early_exit_witness :
  finished (bresenham_trace 10 (V3 0 0 0) (V3 3 1 0) (logged stop_at_second)
                            (O, [])) = true /\
  snd (state_of (bresenham_trace 10 (V3 0 0 0) (V3 3 1 0) (logged stop_at_second)
                                 (O, [])))
    = firstn 2 (trace_cells 10 (V3 0 0 0) (V3 3 1 0)) /\
  length (snd (state_of (bresenham_trace 10 (V3 0 0 0) (V3 3 1 0)
                                          (logged stop_at_second) (O, [])))) = 2%nat.
Proof.
  assert (Hk : (1 <= 2 <= length (trace_cells 10 (V3 0 0 0) (V3 3 1 0)))%nat)
    by (vm_compute; lia).
  pose proof (bresenham_trace_early_exit stop_at_second O 10 (V3 0 0 0) (V3 3 1 0)
                2 Hk eq_refl) as (G1 & G2 & G3 & _).
  split; [exact G1|]. split; [exact G2|exact G3].
Defined.

(** ** The counting tracer is the visitor tracer with a counting functor *)

Section SimpleIsTrace.
Variable grid3 : ScrollGrid3.
Variables (e sx sy sz ax ay az : Z).

Lemma simple_loop_x_trace (fuel : nat) : forall decy decz x y z array3,
  simple_loop_x grid3 e sx sy sz ax ay az fuel decy decz x y z array3 =
  loop_x (counting_functor grid3) e sx sy sz ax ay az fuel decy decz x y z array3.
Proof.
  induction fuel as [|n IH]; intros; cbn [simple_loop_x loop_x]; [reflexivity|].
  unfold counting_functor at 1. cbn [negb].
  destruct (x =? e); [reflexivity|].
  destruct (bres_step decy ax y sy), (bres_step decz ax z sz). apply IH.
Qed.

Lemma simple_loop_y_trace (fuel : nat) : forall decx decz x y z array3,
  simple_loop_y grid3 e sx sy sz ax ay az fuel decx decz x y z array3 =
  loop_y (counting_functor grid3) e sx sy sz ax ay az fuel decx decz x y z array3.
Proof.
  induction fuel as [|n IH]; intros; cbn [simple_loop_y loop_y]; [reflexivity|].
  unfold counting_functor at 1. cbn [negb].
  destruct (y =? e); [reflexivity|].
  destruct (bres_step decx ay x sx), (bres_step decz ay z sz). apply IH.
Qed.

Lemma simple_loop_z_trace (fuel : nat) : forall decx decy x y z array3,
  simple_loop_z grid3 e sx sy sz ax ay az fuel decx decy x y z array3 =
  loop_z (counting_functor grid3) e sx sy sz ax ay az fuel decx decy x y z array3.
Proof.
  induction fuel as [|n IH]; intros; cbn [simple_loop_z loop_z]; [reflexivity|].
  unfold counting_functor at 1. cbn [negb].
  destruct (z =? e); [reflexivity|].
  destruct (bres_step decx az x sx), (bres_step decy az y sy). apply IH.
Qed.
End SimpleIsTrace.

Lemma bresenham_trace_simple_as_trace (fuel : nat) (a b : Vec3Ix)
    (grid3 : ScrollGrid3) (array3 : DenseArray3) :
  bresenham_trace_simple fuel a b grid3 array3 =
  bresenham_trace fuel a b (counting_functor grid3) array3.
Proof.
  unfold bresenham_trace_simple, bresenham_trace.
  destruct (sign_abs (to_int (wrap64 (c0 b - c0 a)))) as [sx dx].
  destruct (sign_abs (to_int (wrap64 (c1 b - c1 a)))) as [sy dy].
  destruct (sign_abs (to_int (wrap64 (c2 b - c2 a)))) as [sz dz].
  destruct ((dy <=? dx) && (dz <=? dx)); [apply simple_loop_x_trace|].
  destruct ((dx <=? dy) && (dz <=? dy)); [apply simple_loop_y_trace|].
  destruct ((dx <=? dz) && (dy <=? dz)); [apply simple_loop_z_trace|].
  reflexivity.
Qed.

Lemma feed_counting (grid3 : ScrollGrid3) (p : list Vec3Ix) (array3 : DenseArray3) :
  feed (counting_functor grid3) array3 p = (count_cells grid3 array3 p, true).
Proof.
  revert array3; induction p as [|c p IH]; intros; [reflexivity|].
  cbn [feed count_cells fold_left]. unfold counting_functor at 1.
  apply IH.
Qed.

(** C8.  The counting tracer does what the visitor tracer does with the
    functor that bumps [array3[grid.grid_to_mem(x, y, z)]] and answers "go on":
    the two runs are equal; the counters end as if the cells of the visitor
    tracer's path had been bumped one by one in path order; and the counting
    tracer returns exactly when the uninterrupted visitor tracer does, never
    earlier. *)
Theorem bresenham_trace_simple_refines (fuel : nat) (a b : Vec3Ix)
    (grid3 : ScrollGrid3) (array3 : DenseArray3) :
  bresenham_trace_simple fuel a b grid3 array3 =
    bresenham_trace fuel a b (counting_functor grid3) array3 /\
  state_of (bresenham_trace_simple fuel a b grid3 array3) =
    count_cells grid3 array3 (trace_cells fuel a b) /\
  finished (bresenham_trace_simple fuel a b grid3 array3) =
    finished (bresenham_trace fuel a b recording []).
Proof.
  split; [apply bresenham_trace_simple_as_trace|].
  rewrite bresenham_trace_simple_as_trace, bresenham_trace_replay.
  unfold trace_cells.
  destruct (bresenham_trace fuel a b recording []) as [p|p];
    cbn [replay state_of finished]; rewrite feed_counting; now split.
Qed.

(** ** The 2-D tracer and its [end_cell] flag *)

Section Flags2.
Context {St : Type} (f : TraceFunctor2 St).
Variables (e sx sy ax ay : Z).

Lemma loop2_x_flags (fuel : nat) : forall decy x y s l,
  Forall (fun c => snd c = false) l ->
  Forall (fun c => snd c = false)
    (snd (state_of (loop2_x (logged2 f) e sx sy ax ay fuel decy x y (s, l)))).
Proof.
  induction fuel as [|n IH]; intros decy x y s l Hl; cbn [loop2_x]; [exact Hl|].
  unfold logged2 at 1. cbn [fst snd].
  destruct (f s x y false) as [s1 go].
  assert (Hl1 : Forall (fun c => snd c = false) (l ++ [(V2 x y, false)])).
  { apply Forall_app. split; [exact Hl|]. now constructor. }
  destruct go; cbn [negb]; [|exact Hl1].
  destruct (x =? e); [exact Hl1|].
  destruct (bres_step decy ax y sy). now apply IH.
Qed.

Lemma loop2_y_flags (fuel : nat) : forall decx x y s l,
  Forall (fun c => snd c = false) l ->
  Forall (fun c => snd c = false)
    (snd (state_of (loop2_y (logged2 f) e sx sy ax ay fuel decx x y (s, l)))).
Proof.
  induction fuel as [|n IH]; intros decx x y s l Hl; cbn [loop2_y]; [exact Hl|].
  unfold logged2 at 1. cbn [fst snd].
  destruct (f s x y false) as [s1 go].
  assert (Hl1 : Forall (fun c => snd c = false) (l ++ [(V2 x y, false)])).
  { apply Forall_app. split; [exact Hl|]. now constructor. }
  destruct go; cbn [negb]; [|exact Hl1].
  destruct (y =? e); [exact Hl1|].
  destruct (bres_step decx ay x sx). now apply IH.
Qed.

Lemma loop2_x_logged (fuel : nat) : forall decy x y s l,
  map_outcome fst (loop2_x (logged2 f) e sx sy ax ay fuel decy x y (s, l)) =
  loop2_x f e sx sy ax ay fuel decy x y s.
Proof.
  induction fuel as [|n IH]; intros; cbn [loop2_x]; [reflexivity|].
  unfold logged2 at 1. cbn [fst snd].
  destruct (f s x y false) as [s1 go].
  destruct go; cbn [negb]; [|reflexivity].
  destruct (x =? e); [reflexivity|].
  destruct (bres_step decy ax y sy). apply IH.
Qed.

Lemma loop2_y_logged (fuel : nat) : forall decx x y s l,
  map_outcome fst (loop2_y (logged2 f) e sx sy ax ay fuel decx x y (s, l)) =
  loop2_y f e sx sy ax ay fuel decx x y s.
Proof.
  induction fuel as [|n IH]; intros; cbn [loop2_y]; [reflexivity|].
  unfold logged2 at 1. cbn [fst snd].
  destruct (f s x y false) as [s1 go].
  destruct go; cbn [negb]; [|reflexivity].
  destruct (y =? e); [reflexivity|].
  destruct (bres_step decx ay x sx). apply IH.
Qed.
End Flags2.

(** C5.  Whatever the endpoints, the functor and the budget, every call the
    2-D tracer makes passes [false] as the [end_cell] flag, the call on the
    last cell included; the record of the calls is kept by a wrapper that
    leaves the run of the functor unchanged. *)
Theorem bresenham_trace2_flag_false {St : Type} (f : TraceFunctor2 St) (s : St)
    (fuel : nat) (a b : Vec2Ix) :
  Forall (fun c => snd c = false)
    (snd (state_of (bresenham_trace2 fuel a b (logged2 f) (s, [])))) /\
  map_outcome fst (bresenham_trace2 fuel a b (logged2 f) (s, [])) =
    bresenham_trace2 fuel a b f s.
Proof.
  unfold bresenham_trace2.
  destruct (sign_abs (to_int (wrap64 (d0 b - d0 a)))) as [sx dx].
  destruct (sign_abs (to_int (wrap64 (d1 b - d1 a)))) as [sy dy].
  destruct (dy <=? dx).
  - split; [now apply loop2_x_flags | apply loop2_x_logged].
  - destruct (dx <=? dy).
    + split; [now apply loop2_y_flags | apply loop2_y_logged].
    + split; [constructor | reflexivity].
Qed.

(** The run from (0,0) to (0,5): six calls, Y driving, [x] fixed, and the
    call on the end cell (0,5) carries [false] like the others. *)
Example bresenham_trace2_run :
  bresenham_trace2 10 (V2 0 0) (V2 0 5) (logged2 (fun (s : unit) _ _ _ => (s, true)))
                   (tt, []) =
  Finished (tt, [(V2 0 0, false); (V2 0 1, false); (V2 0 2, false);
                 (V2 0 3, false); (V2 0 4, false); (V2 0 5, false)]).
Proof. reflexivity. Qed.

(** ** Endpoints beyond [int]

    The runs below convert 64-bit coordinates to [int] and nothing more: no
    [int] operation in them overflows. *)

(** With all deltas narrowed to zero and the [int] copy of the driving
    coordinate different from the 64-bit end coordinate, the X loop shows
    the same cell at every iteration and never leaves. *)
Lemma loop_x_stuck (e x : Z) (fuel : nat) : forall l,
  x <> e -> fits_int x ->
  loop_x recording e 0 0 0 0 0 0 fuel 0 0 x 0 0 l =
  OutOfFuel (l ++ repeat (V3 x 0 0) fuel).
Proof.
  induction fuel as [|n IH]; intros l Hx Fx; cbn [loop_x repeat].
  - now rewrite app_nil_r.
  - cbn [recording negb]. destruct (Z.eqb_spec x e); [contradiction|].
    change (bres_step 0 0 0 0) with (0, 0). cbn iota.
    change (int_add 0 0) with 0.
    replace (int_add x 0) with x
      by (unfold int_add; now rewrite Z.add_0_r, to_int_id).
    rewrite IH by assumption. now rewrite <- app_assoc.
Qed.

Lemma run_from_beyond_int (fuel : nat) :
  bresenham_trace fuel (V3 (2 ^ 31) 0 0) (V3 (2 ^ 31) 0 0) recording [] =
  OutOfFuel (repeat (V3 (- 2 ^ 31) 0 0) fuel).
Proof.
  unfold bresenham_trace. cbn [c0 c1 c2]. rewrite !Z.sub_diag.
  change (sign_abs (to_int (wrap64 0))) with (0, 0). cbn iota.
  change (int_mul 2 0) with 0. change (int_sub 0 0) with 0.
  change (to_int 0) with 0. change (to_int (2 ^ 31)) with (- 2 ^ 31).
  cbn [Z.leb Z.compare andb].
  apply (loop_x_stuck (2 ^ 31) (- 2 ^ 31) fuel []); [discriminate|].
  unfold fits_int, int_min, int_max. lia.
Qed.

Lemma run_to_beyond_int (fuel : nat) :
  bresenham_trace fuel (V3 0 0 0) (V3 (2 ^ 32) 0 0) recording [] =
  OutOfFuel (repeat (V3 0 0 0) fuel).
Proof.
  unfold bresenham_trace. cbn [c0 c1 c2]. rewrite !Z.sub_diag.
  change (sign_abs (to_int (wrap64 0))) with (0, 0).
  change (sign_abs (to_int (wrap64 (2 ^ 32 - 0)))) with (0, 0). cbn iota.
  change (int_mul 2 0) with 0. change (int_sub 0 0) with 0.
  change (to_int 0) with 0.
  cbn [Z.leb Z.compare andb].
  apply (loop_x_stuck (2 ^ 32) 0 fuel []); [discriminate|].
  unfold fits_int, int_min, int_max. lia.
Qed.

(** C1, at an input where the code departs from the specification.  For
    start = end = (2^31, 0, 0) one visited cell is promised, the start.  The
    tracer narrows the start to [int], shows the cell (-2^31, 0, 0) instead,
    never finds its [int] copy equal to the 64-bit end coordinate, and so
    shows that cell again at every iteration without ever returning: with
    any budget the run is cut off, having shown as many cells as the budget
    allows, none of them the start. *)
Theorem bresenham_trace_start_beyond_int (fuel : nat) :
  chebyshev (V3 (2 ^ 31) 0 0) (V3 (2 ^ 31) 0 0) = 0 /\
  finished (bresenham_trace fuel (V3 (2 ^ 31) 0 0) (V3 (2 ^ 31) 0 0) recording [])
    = false /\
  trace_cells fuel (V3 (2 ^ 31) 0 0) (V3 (2 ^ 31) 0 0)
    = repeat (V3 (- 2 ^ 31) 0 0) fuel /\
  length (trace_cells fuel (V3 (2 ^ 31) 0 0) (V3 (2 ^ 31) 0 0)) = fuel /\
  existsb (Vec3Ix_eqb (V3 (2 ^ 31) 0 0))
          (trace_cells fuel (V3 (2 ^ 31) 0 0) (V3 (2 ^ 31) 0 0)) = false.
Proof.
  unfold trace_cells. rewrite run_from_beyond_int. cbn [finished state_of].
  split; [reflexivity|]. split; [reflexivity|]. split; [reflexivity|].
  split; [apply repeat_length|].
  induction fuel as [|n IH]; [reflexivity|].
  cbn [repeat existsb]. rewrite IH. reflexivity.
Qed.

Lemma loop2_x_stuck (e x : Z) (fuel : nat) : forall l,
  x <> e -> fits_int x ->
  loop2_x recording2 e 0 0 0 0 fuel 0 x 0 l =
  OutOfFuel (l ++ repeat (V2 x 0) fuel).
Proof.
  induction fuel as [|n IH]; intros l Hx Fx; cbn [loop2_x repeat].
  - now rewrite app_nil_r.
  - cbn [recording2 negb]. destruct (Z.eqb_spec x e); [contradiction|].
    change (bres_step 0 0 0 0) with (0, 0). cbn iota.
    change (int_add 0 0) with 0.
    replace (int_add x 0) with x
      by (unfold int_add; now rewrite Z.add_0_r, to_int_id).
    rewrite IH by assumption. now rewrite <- app_assoc.
Qed.

Lemma run2_to_beyond_int (fuel : nat) :
  bresenham_trace2 fuel (V2 0 0) (V2 (2 ^ 32) 0) recording2 [] =
  OutOfFuel (repeat (V2 0 0) fuel).
Proof.
  unfold bresenham_trace2. cbn [d0 d1]. rewrite !Z.sub_diag.
  change (sign_abs (to_int (wrap64 0))) with (0, 0).
  change (sign_abs (to_int (wrap64 (2 ^ 32 - 0)))) with (0, 0). cbn iota.
  change (int_mul 2 0) with 0. change (int_sub 0 0) with 0.
  change (to_int 0) with 0.
  cbn [Z.leb Z.compare].
  apply (loop2_x_stuck (2 ^ 32) 0 fuel []); [discriminate|].
  unfold fits_int, int_min, int_max. lia.
Qed.

(** C4, at an input where the code departs from the specification.  From
    (0, 0, 0) to (2^32, 0, 0), endpoints and distance all representable in 64
    bits, the distance 2^32 is narrowed to the [int] 0: the tracer takes the
    two cells for one, keeps showing (0, 0, 0), and never reaches the end,
    where a path of 2^32 + 1 cells ending at (2^32, 0, 0) is promised.  The
    2-D tracer does the same from (0, 0) to (2^32, 0). *)
Theorem bresenham_trace_delta_narrowed (fuel : nat) :
  chebyshev (V3 0 0 0) (V3 (2 ^ 32) 0 0) = 2 ^ 32 /\
  wrap64 (c0 (V3 (2 ^ 32) 0 0) - c0 (V3 0 0 0)) = 2 ^ 32 /\
  to_int (wrap64 (c0 (V3 (2 ^ 32) 0 0) - c0 (V3 0 0 0))) = 0 /\
  bresenham_trace fuel (V3 0 0 0) (V3 (2 ^ 32) 0 0) recording []
    = OutOfFuel (repeat (V3 0 0 0) fuel) /\
  bresenham_trace2 fuel (V2 0 0) (V2 (2 ^ 32) 0) recording2 []
    = OutOfFuel (repeat (V2 0 0) fuel).
Proof.
  split; [reflexivity|]. split; [reflexivity|]. split; [reflexivity|].
  split; [apply run_to_beyond_int | apply run2_to_beyond_int].
Qed.


(** ** Tracing a segment backwards *)

(** On an odd driving distance no decision variable is ever zero, and the
    rounding of the line is symmetric. *)
Lemma bres_k_reflect (D d j : Z) :
  Z.odd D = true -> 0 < D -> 0 <= d <= D ->
  bres_k D d (D - j) = d - bres_k D d j.
Proof.
  intros Ho HD Hd.
  pose proof (Z.div_mod (2 * j * d + D) (2 * D) ltac:(lia)) as Hq.
  pose proof (Z.mod_pos_bound (2 * j * d + D) (2 * D) ltac:(lia)) as Hr.
  fold (bres_k D d j) in Hq.
  set (q := bres_k D d j) in *. set (r := (2 * j * d + D) mod (2 * D)) in *.
  assert (Hr0 : r <> 0).
  { intros E. rewrite E, Z.add_0_r in Hq.
    assert (P : Z.odd (D + 2 * (j * d)) = Z.odd (0 + 2 * (D * q)))
      by (f_equal; lia).
    rewrite !Z.odd_add_mul_2, Ho in P. discriminate. }
  unfold bres_k at 1. symmetry.
  apply Z.div_unique with (r := 2 * D - r); [lia|].
  replace (2 * (D - j) * d + D) with (2 * D * d + 2 * D - (2 * j * d + D)) by ring.
  rewrite Hq. ring.
Qed.

Lemma axis_reflect (c c' D j : Z) :
  Z.odd D = true -> 0 <= Z.abs (c' - c) <= D ->
  c' + Z.sgn (c - c') * bres_k D (Z.abs (c - c')) j =
  c + Z.sgn (c' - c) * bres_k D (Z.abs (c' - c)) (D - j).
Proof.
  intros Ho Hd.
  assert (HD : 0 < D).
  { destruct (Z.eq_dec D 0) as [->|]; [discriminate|lia]. }
  replace (Z.abs (c - c')) with (Z.abs (c' - c)) by lia.
  rewrite bres_k_reflect by assumption.
  set (k := bres_k D (Z.abs (c' - c)) j).
  destruct (Z.lt_trichotomy (c' - c) 0) as [H|[H|H]].
  - rewrite (Z.sgn_neg (c' - c)), (Z.sgn_pos (c - c')), (Z.abs_neq (c' - c)) by lia.
    ring.
  - replace c' with c in * by lia. rewrite !Z.sub_diag. cbn [Z.sgn]. ring.
  - rewrite (Z.sgn_pos (c' - c)), (Z.sgn_neg (c - c')), (Z.abs_eq (c' - c)) by lia.
    ring.
Qed.

Lemma line_cell_reverse (a b : Vec3Ix) (j : Z) :
  Z.odd (chebyshev a b) = true ->
  line_cell b a j = line_cell a b (chebyshev a b - j).
Proof.
  intros Ho. unfold line_cell. rewrite (chebyshev_sym a b).
  set (D := chebyshev a b) in *.
  unfold delta0, delta1, delta2.
  f_equal; apply axis_reflect; try assumption;
    unfold D, chebyshev, delta0, delta1, delta2; lia.
Qed.

Lemma line_reverse (a b : Vec3Ix) :
  Z.odd (chebyshev a b) = true -> line b a = rev (line a b).
Proof.
  intros Ho. pose proof (chebyshev_nonneg a b) as Hp.
  apply nth_ext with (d := a) (d' := a).
  - now rewrite length_rev, !line_length, chebyshev_sym.
  - intros n Hn. rewrite line_length, chebyshev_sym in Hn.
    rewrite rev_nth by (rewrite line_length; lia).
    rewrite line_length.
    rewrite !line_nth by (rewrite ?(chebyshev_sym a b); lia).
    rewrite line_cell_reverse by assumption. f_equal. lia.
Qed.

(** C3, amended.  On endpoints that the tracer's [int] copies hold exactly,
    and with a budget above the Chebyshev distance, the trace from [b] to [a]
    returns like the trace from [a] to [b], shows as many cells, starts at [b]
    and ends at [a]; and when the Chebyshev distance is odd it shows the very
    cells of the forward trace, in reversed order. *)
Theorem bresenham_trace_reverse (fuel : nat) (a b : Vec3Ix) :
  int_exact a b -> (Z.to_nat (chebyshev a b) < fuel)%nat ->
  finished (bresenham_trace fuel b a recording []) = true /\
  finished (bresenham_trace fuel a b recording []) = true /\
  length (trace_cells fuel b a) = length (trace_cells fuel a b) /\
  hd_error (trace_cells fuel b a) = Some b /\
  last (trace_cells fuel b a) b = a /\
  (Z.odd (chebyshev a b) = true ->
   trace_cells fuel b a = rev (trace_cells fuel a b)).
Proof.
  intros He Hf.
  pose proof (int_exact_sym a b He) as He'.
  assert (Hf' : (Z.to_nat (chebyshev b a) < fuel)%nat) by now rewrite chebyshev_sym.
  rewrite !trace_cells_line, !bresenham_trace_line by assumption.
  split; [reflexivity|]. split; [reflexivity|].
  split; [now rewrite !line_length, chebyshev_sym|].
  split; [apply line_first|].
  split; [apply line_last|].
  apply line_reverse.
Qed.

Lemma bresenham_trace_reverse_witness :
  int_exact (V3 0 0 0) (V3 3 1 0) /\
  trace_cells 4 (V3 3 1 0) (V3 0 0 0) = rev (trace_cells 4 (V3 0 0 0) (V3 3 1 0)).
Proof.
  assert (E : int_exact (V3 0 0 0) (V3 3 1 0)).
  { unfold int_exact, fits_int, int_min, int_max, chebyshev, delta0, delta1, delta2.
    cbn [c0 c1 c2]. lia. }
  split; [exact E|].
  assert (F : (Z.to_nat (chebyshev (V3 0 0 0) (V3 3 1 0)) < 4)%nat)
    by (vm_compute; lia).
  pose proof (bresenham_trace_reverse 4 (V3 0 0 0) (V3 3 1 0) E F)
    as (_ & _ & _ & _ & _ & R).
  exact (R eq_refl).
Defined.

(** C3 as stated fails: from (0,0,0) to (2,1,0) the tracer passes through
    (1,1,0); back from (2,1,0) to (0,0,0) it passes through (1,0,0) and never
    shows (1,1,0).  Both runs return and show three cells. *)
Lemma bresenham_trace_not_symmetric :
  bresenham_trace 3 (V3 0 0 0) (V3 2 1 0) recording [] =
    Finished [V3 0 0 0; V3 1 1 0; V3 2 1 0] /\
  bresenham_trace 3 (V3 2 1 0) (V3 0 0 0) recording [] =
    Finished [V3 2 1 0; V3 1 0 0; V3 0 0 0] /\
  existsb (Vec3Ix_eqb (V3 1 1 0)) (trace_cells 3 (V3 0 0 0) (V3 2 1 0)) = true /\
  existsb (Vec3Ix_eqb (V3 1 1 0)) (trace_cells 3 (V3 2 1 0) (V3 0 0 0)) = false.
Proof. repeat split; reflexivity. Qed.

(** ** The ray/box test: what a refusal leaves behind *)

(** C10.  Whatever the scalar type, when [aabb_ray_intersect] answers
    [false] the ray it leaves is the ray it was given, [tmin] and [tmax]
    included: both refusals return before the ray is written. *)
Theorem aabb_false_leaves_ray {T : Type} `{Scalar T} (box : Box T) (r : Ray3 T) :
  fst (aabb_ray_intersect box r) = false ->
  snd (aabb_ray_intersect box r) = r.
Proof.
  unfold aabb_ray_intersect.
  destruct (s_gt (t_near AxisX box r) (t_far AxisY box r) ||
            s_gt (t_near AxisY box r) (t_far AxisX box r)); [reflexivity|].
  match goal with
  | |- context [if ?c then (false, r) else _] => destruct c
  end; [reflexivity|].
  cbn [fst]. discriminate.
Qed.

Lemma aabb_false_leaves_ray_witness :
  fst (aabb_ray_intersect unit_box ray_beside_box) = false /\
  tmin (snd (aabb_ray_intersect unit_box ray_beside_box)) = 0%float /\
  tmax (snd (aabb_ray_intersect unit_box ray_beside_box)) = 100%float.
Proof.
  assert (F : fst (aabb_ray_intersect unit_box ray_beside_box) = false)
    by reflexivity.
  split; [exact F|].
  rewrite (aabb_false_leaves_ray unit_box ray_beside_box F).
  split; reflexivity.
Defined.

(** ** The ray/box test on exact scalars *)

Lemma Q_gt_false (a b : Q) : s_gt a b = false <-> (a <= b)%Q.
Proof.
  cbn [s_gt Q_Scalar]. rewrite negb_false_iff. apply Qle_bool_iff.
Qed.

Lemma Q_gt_true (a b : Q) : s_gt a b = true <-> (b < a)%Q.
Proof.
  cbn [s_gt Q_Scalar]. rewrite negb_true_iff.
  rewrite <- not_true_iff_false, Qle_bool_iff. split.
  - apply Qnot_le_lt.
  - apply Qlt_not_le.
Qed.

Lemma Q_lt_true (a b : Q) : s_lt a b = true <-> (a < b)%Q.
Proof. apply (Q_gt_true b a). Qed.

Lemma Q_lt_false (a b : Q) : s_lt a b = false <-> (b <= a)%Q.
Proof. apply (Q_gt_false b a). Qed.

(** On a box with min <= max and a ray whose sign bits tell the sign of its
    reciprocal direction, every slab is entered no later than it is left. *)
Lemma slab_ordered_Q (a : axis) (box : Box Q) (r : Ray3 Q) :
  box_ordered_Q box -> ray_signs_agree_Q r ->
  (t_near a box r <= t_far a box r)%Q.
Proof.
  intros Hb Hs. specialize (Hb a). specialize (Hs a).
  unfold t_near, t_far, bound. cbn [s_sub s_mul Q_Scalar].
  destruct (sign_bit a r); cbn [negb]; symmetry in Hs.
  - apply Q_lt_true in Hs. nra.
  - apply Q_lt_false in Hs. nra.
Qed.

Lemma all_axes_point {A : Type} (P : axis -> A -> Prop) :
  (exists t, forall a, P a t) <->
  (exists t, P AxisX t /\ P AxisY t /\ P AxisZ t).
Proof.
  split; intros [t Ht]; exists t.
  - repeat split; apply Ht.
  - intros [ | | ]; tauto.
Qed.

(** ** The ray/box test on totally ordered scalars

    The scalar type is any on which [>] and [<] are the comparisons of a
    total order, as far as the values at hand go: [valid] picks these values
    and [rank] sends them to the rationals in order.  Exact rationals are
    such a type, and so are the doubles other than NaN. *)

Section AabbOrdered.
Context {T : Type} `{Scalar T}.
Variables (valid : T -> bool) (rank : T -> Q).
Hypothesis gt_rank : forall a b, valid a = true -> valid b = true ->
  (s_gt a b = true <-> (rank b < rank a)%Q).
Hypothesis lt_rank : forall a b, valid a = true -> valid b = true ->
  (s_lt a b = true <-> (rank a < rank b)%Q).

Lemma gt_rank_true (a b : T) :
  valid a = true -> valid b = true -> s_gt a b = true -> (rank b < rank a)%Q.
Proof using gt_rank. intros Va Vb. apply gt_rank; assumption. Qed.

Lemma gt_rank_false (a b : T) :
  valid a = true -> valid b = true -> s_gt a b = false -> (rank a <= rank b)%Q.
Proof using gt_rank.
  intros Va Vb E. apply Qnot_lt_le. intros L.
  apply (gt_rank a b Va Vb) in L. congruence.
Qed.

Lemma lt_rank_true (a b : T) :
  valid a = true -> valid b = true -> s_lt a b = true -> (rank a < rank b)%Q.
Proof using lt_rank. intros Va Vb. apply lt_rank; assumption. Qed.

Lemma lt_rank_false (a b : T) :
  valid a = true -> valid b = true -> s_lt a b = false -> (rank b <= rank a)%Q.
Proof using lt_rank.
  intros Va Vb E. apply Qnot_lt_le. intros L.
  apply (lt_rank a b Va Vb) in L. congruence.
Qed.

Ltac r_cases :=
  repeat match goal with
    | |- context [s_gt ?a ?b] =>
        is_var a; is_var b;
        let E := fresh "E" in
        destruct (s_gt a b) eqn:E;
        [apply gt_rank_true in E; [|assumption|assumption]
        |apply gt_rank_false in E; [|assumption|assumption]];
        cbn [negb andb orb fst snd tmin tmax set_tmin set_tmax];
        try (exfalso; lra)
    | |- context [s_lt ?a ?b] =>
        is_var a; is_var b;
        let E := fresh "E" in
        destruct (s_lt a b) eqn:E;
        [apply lt_rank_true in E; [|assumption|assumption]
        |apply lt_rank_false in E; [|assumption|assumption]];
        cbn [negb andb orb fst snd tmin tmax set_tmin set_tmax];
        try (exfalso; lra)
    end.

Variables (box : Box T) (r : Ray3 T).
Hypothesis Hvalid : forall a : axis,
  valid (t_near a box r) = true /\ valid (t_far a box r) = true.
Hypothesis Hord : forall a : axis, (rank (t_near a box r) <= rank (t_far a box r))%Q.

Ltac name_slabs :=
  pose proof (Hord AxisX) as Hx; pose proof (Hord AxisY) as Hy;
  pose proof (Hord AxisZ) as Hz;
  destruct (Hvalid AxisX) as [Vx0 Vx1]; destruct (Hvalid AxisY) as [Vy0 Vy1];
  destruct (Hvalid AxisZ) as [Vz0 Vz1];
  generalize dependent (t_near AxisX box r); intros x0;
  generalize dependent (t_far AxisX box r); intros x1 Hx Vx0 Vx1;
  generalize dependent (t_near AxisY box r); intros y0;
  generalize dependent (t_far AxisY box r); intros y1 Hy Vy0 Vy1;
  generalize dependent (t_near AxisZ box r); intros z0;
  generalize dependent (t_far AxisZ box r); intros z1 Hz Vz0 Vz1.

Lemma aabb_slabs_meet : fst (aabb_ray_intersect box r) = slabs_meet box r.
Proof using gt_rank lt_rank Hvalid Hord.
  unfold aabb_ray_intersect, slabs_meet, intervals_overlap, s_le.
  cbn [forallb]. name_slabs.
  clear Hvalid Hord.
  r_cases; try reflexivity.
  all: repeat match goal with
    | |- context [fst (if ?c then _ else _)] => destruct c
    end; reflexivity.
Qed.

Lemma slabs_meet_point :
  slabs_meet box r = true <->
  exists t : Q, forall a : axis,
    (rank (t_near a box r) <= t <= rank (t_far a box r))%Q.
Proof using gt_rank Hvalid Hord.
  rewrite (all_axes_point
             (fun a t => (rank (t_near a box r) <= t <= rank (t_far a box r))%Q)).
  unfold slabs_meet, intervals_overlap, s_le. cbn [forallb]. name_slabs.
  clear Hvalid Hord.
  split.
  - intros M.
    exists (rank (if s_gt y0 x0 then (if s_gt z0 y0 then z0 else y0)
                  else (if s_gt z0 x0 then z0 else x0))).
    revert M. r_cases; intros M; try discriminate M; lra.
  - intros [t Ht]. r_cases; reflexivity.
Qed.

Hypothesis Hvmin : valid (tmin r) = true.
Hypothesis Hvmax : valid (tmax r) = true.

Lemma aabb_segment :
  fst (aabb_ray_intersect box r) = true ->
  s_le (tmin (snd (aabb_ray_intersect box r)))
       (tmax (snd (aabb_ray_intersect box r))) = segment_meets_slabs box r.
Proof using gt_rank lt_rank Hvalid Hord Hvmin Hvmax.
  unfold aabb_ray_intersect, segment_meets_slabs, intervals_overlap, s_le.
  cbn [forallb]. name_slabs.
  clear Hvalid Hord.
  destruct r as [o d i s t0 t1]. cbn [tmin tmax] in *.
  r_cases; intros M; try discriminate M; r_cases; reflexivity.
Qed.

Lemma segment_meets_point :
  segment_meets_slabs box r = true <->
  exists t : Q, (rank (tmin r) <= t <= rank (tmax r))%Q /\
    forall a : axis, (rank (t_near a box r) <= t <= rank (t_far a box r))%Q.
Proof using gt_rank Hvalid Hord Hvmin Hvmax.
  assert (R : (exists t : Q, (rank (tmin r) <= t <= rank (tmax r))%Q /\
                 forall a : axis,
                   (rank (t_near a box r) <= t <= rank (t_far a box r))%Q) <->
              (exists t : Q, (rank (tmin r) <= t <= rank (tmax r))%Q /\
                 (rank (t_near AxisX box r) <= t <= rank (t_far AxisX box r))%Q /\
                 (rank (t_near AxisY box r) <= t <= rank (t_far AxisY box r))%Q /\
                 (rank (t_near AxisZ box r) <= t <= rank (t_far AxisZ box r))%Q)).
  { split; intros (t & Ht & Ha); exists t; (split; [exact Ht|]).
    - repeat split; apply Ha.
    - intros [ | | ]; tauto. }
  rewrite R. clear R.
  unfold segment_meets_slabs, intervals_overlap, s_le. cbn [forallb]. name_slabs.
  clear Hvalid Hord.
  generalize dependent (tmin r). intros t0 Vt0.
  generalize dependent (tmax r). intros t1 Vt1.
  split.
  - intros M.
    exists (rank (if s_gt y0 x0
                  then (if s_gt z0 y0
                        then (if s_gt t0 z0 then t0 else z0)
                        else (if s_gt t0 y0 then t0 else y0))
                  else (if s_gt z0 x0
                        then (if s_gt t0 z0 then t0 else z0)
                        else (if s_gt t0 x0 then t0 else x0)))).
    revert M. r_cases; intros M; try discriminate M; lra.
  - intros [t Ht]. r_cases; reflexivity.
Qed.
Ltac name_valid_slabs :=
  destruct (Hvalid AxisX) as [Vx0 Vx1]; destruct (Hvalid AxisY) as [Vy0 Vy1];
  destruct (Hvalid AxisZ) as [Vz0 Vz1];
  generalize dependent (t_near AxisX box r); intros x0;
  generalize dependent (t_far AxisX box r); intros x1 Vx0 Vx1;
  generalize dependent (t_near AxisY box r); intros y0;
  generalize dependent (t_far AxisY box r); intros y1 Vy0 Vy1;
  generalize dependent (t_near AxisZ box r); intros z0;
  generalize dependent (t_far AxisZ box r); intros z1 Vz0 Vz1.

(** The interval written back: [tmin] becomes the largest of the old [tmin]
    and the three entry parameters, [tmax] the smallest of the old [tmax] and
    the three exit parameters. *)
Lemma aabb_clip_low :
  fst (aabb_ray_intersect box r) = true ->
  ((rank (tmin r) <= rank (tmin (snd (aabb_ray_intersect box r))))%Q /\
   (rank (t_near AxisX box r) <= rank (tmin (snd (aabb_ray_intersect box r))))%Q /\
   (rank (t_near AxisY box r) <= rank (tmin (snd (aabb_ray_intersect box r))))%Q /\
   (rank (t_near AxisZ box r) <= rank (tmin (snd (aabb_ray_intersect box r))))%Q) /\
  (tmin (snd (aabb_ray_intersect box r)) = tmin r \/
   tmin (snd (aabb_ray_intersect box r)) = t_near AxisX box r \/
   tmin (snd (aabb_ray_intersect box r)) = t_near AxisY box r \/
   tmin (snd (aabb_ray_intersect box r)) = t_near AxisZ box r).
Proof using gt_rank lt_rank Hvalid Hvmin Hvmax.
  clear Hord. unfold aabb_ray_intersect. name_valid_slabs. clear Hvalid.
  destruct r as [o d i s t0 t1]. cbn [tmin tmax] in *.
  r_cases; intros M; try discriminate M; r_cases;
    (split; [repeat split; lra | tauto]).
Qed.

Lemma aabb_clip_high :
  fst (aabb_ray_intersect box r) = true ->
  ((rank (tmax (snd (aabb_ray_intersect box r))) <= rank (tmax r))%Q /\
   (rank (tmax (snd (aabb_ray_intersect box r))) <= rank (t_far AxisX box r))%Q /\
   (rank (tmax (snd (aabb_ray_intersect box r))) <= rank (t_far AxisY box r))%Q /\
   (rank (tmax (snd (aabb_ray_intersect box r))) <= rank (t_far AxisZ box r))%Q) /\
  (tmax (snd (aabb_ray_intersect box r)) = tmax r \/
   tmax (snd (aabb_ray_intersect box r)) = t_far AxisX box r \/
   tmax (snd (aabb_ray_intersect box r)) = t_far AxisY box r \/
   tmax (snd (aabb_ray_intersect box r)) = t_far AxisZ box r).
Proof using gt_rank lt_rank Hvalid Hvmin Hvmax.
  clear Hord. unfold aabb_ray_intersect. name_valid_slabs. clear Hvalid.
  destruct r as [o d i s t0 t1]. cbn [tmin tmax] in *.
  r_cases; intros M; try discriminate M; r_cases;
    (split; [repeat split; lra | tauto]).
Qed.
End AabbOrdered.

(** The interval written back is made of the values that went in. *)
Lemma aabb_result_valid {T : Type} `{Scalar T} (valid : T -> bool)
    (box : Box T) (r : Ray3 T) :
  (forall a : axis,
     valid (t_near a box r) = true /\ valid (t_far a box r) = true) ->
  valid (tmin r) = true -> valid (tmax r) = true ->
  valid (tmin (snd (aabb_ray_intersect box r))) = true /\
  valid (tmax (snd (aabb_ray_intersect box r))) = true.
Proof.
  intros Hv Vmin Vmax.
  destruct (Hv AxisX) as [Vx0 Vx1], (Hv AxisY) as [Vy0 Vy1], (Hv AxisZ) as [Vz0 Vz1].
  unfold aabb_ray_intersect.
  repeat match goal with
    | |- context [if ?c then _ else _] => destruct c
    end; cbn [fst snd tmin tmax set_tmin set_tmax]; split; assumption.
Qed.

(** C2, amended.  On a scalar type whose comparisons are those of a total
    order on the values at hand (exact rationals; doubles other than NaN),
    and for a box and a ray such that every slab is entered no later than it
    is left (as min <= max and sign bits that agree with the reciprocal
    direction make it), [aabb_ray_intersect] answers [true] exactly when the
    three per-axis slab intervals have a parameter in common; the ray's own
    [tmin, tmax] has no part in the answer.  When the answer is [true], the
    interval written back to the ray is non-empty exactly when the ray's
    segment [tmin, tmax] shares a parameter with the three slabs. *)
Theorem aabb_true_iff_slabs_meet {T : Type} `{Scalar T}
    (valid : T -> bool) (rank : T -> Q) (box : Box T) (r : Ray3 T) :
  (forall a b : T, valid a = true -> valid b = true ->
     (s_gt a b = true <-> (rank b < rank a)%Q)) ->
  (forall a b : T, valid a = true -> valid b = true ->
     (s_lt a b = true <-> (rank a < rank b)%Q)) ->
  (forall a : axis,
     valid (t_near a box r) = true /\ valid (t_far a box r) = true) ->
  (forall a : axis, (rank (t_near a box r) <= rank (t_far a box r))%Q) ->
  (fst (aabb_ray_intersect box r) = true <->
   exists t : Q, forall a : axis,
     (rank (t_near a box r) <= t <= rank (t_far a box r))%Q) /\
  (valid (tmin r) = true -> valid (tmax r) = true ->
   fst (aabb_ray_intersect box r) = true ->
   ((rank (tmin (snd (aabb_ray_intersect box r))) <=
     rank (tmax (snd (aabb_ray_intersect box r))))%Q <->
    exists t : Q, (rank (tmin r) <= t <= rank (tmax r))%Q /\
      forall a : axis,
        (rank (t_near a box r) <= t <= rank (t_far a box r))%Q)).
Proof.
  intros Hgt Hlt Hv Ho. split.
  - rewrite (aabb_slabs_meet valid rank) by assumption.
    now apply (slabs_meet_point valid rank).
  - intros Vmin Vmax Ht.
    rewrite <- (segment_meets_point valid rank) by assumption.
    rewrite <- (aabb_segment valid rank) by assumption.
    destruct (aabb_result_valid valid box r Hv Vmin Vmax) as [V0 V1].
    unfold s_le. rewrite negb_true_iff. split.
    + intros L. destruct (s_gt _ _) eqn:E; [|reflexivity].
      apply (Hgt _ _ V0 V1) in E. lra.
    + intros E. now apply (gt_rank_false valid rank Hgt).
Qed.

(** The same on exact rationals, from the preconditions of the data model. *)
Lemma aabb_true_iff_slabs_meet_Q (box : Box Q) (r : Ray3 Q) :
  box_ordered_Q box -> ray_signs_agree_Q r ->
  (fst (aabb_ray_intersect box r) = true <->
   exists t : Q, forall a : axis, (t_near a box r <= t <= t_far a box r)%Q) /\
  (fst (aabb_ray_intersect box r) = true ->
   ((tmin (snd (aabb_ray_intersect box r)) <=
     tmax (snd (aabb_ray_intersect box r)))%Q <->
    exists t : Q, (tmin r <= t <= tmax r)%Q /\
                  forall a : axis, (t_near a box r <= t <= t_far a box r)%Q)).
Proof.
  intros Hb Hs.
  assert (Hgt : forall a b : Q, true = true -> true = true ->
                  (s_gt a b = true <-> (b < a)%Q))
    by (intros; apply Q_gt_true).
  assert (Hlt : forall a b : Q, true = true -> true = true ->
                  (s_lt a b = true <-> (a < b)%Q))
    by (intros; apply Q_lt_true).
  assert (Hv : forall a : axis, true = true /\ true = true) by (intros; now split).
  assert (Ho : forall a : axis, (t_near a box r <= t_far a box r)%Q)
    by (intros; now apply slab_ordered_Q).
  split.
  - rewrite (aabb_slabs_meet (fun _ => true) (fun q => q)) by assumption.
    now apply (slabs_meet_point (fun _ => true) (fun q => q)).
  - intros Ht.
    rewrite <- (segment_meets_point (fun _ => true) (fun q => q))
      by (assumption || reflexivity).
    rewrite <- (aabb_segment (fun _ => true) (fun q => q))
      by (assumption || reflexivity).
    unfold s_le. rewrite negb_true_iff. symmetry. apply Q_gt_false.
Qed.

(** ** IEEE-754 comparisons against the infinities

    The facts about double precision that the slab test relies on, from the
    specification of the kernel's floats. *)

Lemma Prim2SF_infinity : Prim2SF infinity = S754_infinity false.
Proof. reflexivity. Qed.

Lemma Prim2SF_neg_infinity : Prim2SF neg_infinity = S754_infinity true.
Proof. reflexivity. Qed.

Lemma Prim2SF_zero : Prim2SF 0%float = S754_zero false.
Proof. reflexivity. Qed.

Ltac sf_cases :=
  rewrite ?ltb_spec, ?eqb_spec, ?mul_spec,
    ?Prim2SF_infinity, ?Prim2SF_neg_infinity, ?Prim2SF_zero in *;
  repeat match goal with
    | |- context [Prim2SF ?x] =>
        is_var x; destruct (Prim2SF x) as [[|]|[|]| |[|] ? ?]
    | H : context [Prim2SF ?x] |- _ =>
        is_var x; destruct (Prim2SF x) as [[|]|[|]| |[|] ? ?]
    end;
  cbn in *; try reflexivity; try discriminate; try congruence.

Lemma F_inf_lt (x : float) : (infinity <? x)%float = false.
Proof. sf_cases. Qed.

Lemma F_lt_ninf (x : float) : (x <? neg_infinity)%float = false.
Proof. sf_cases. Qed.

Lemma F_below_ninf (x y : float) :
  (neg_infinity <? x)%float = false -> (y <? x)%float = false.
Proof. sf_cases. Qed.

Lemma F_above_inf (x y : float) :
  (x <? infinity)%float = false -> (x <? y)%float = false.
Proof. sf_cases. Qed.

Lemma F_lt_inf (x y : float) :
  (x <? y)%float = true -> (x <? infinity)%float = true.
Proof. sf_cases. Qed.

Lemma F_gt_ninf (x y : float) :
  (x <? y)%float = true -> (neg_infinity <? y)%float = true.
Proof. sf_cases. Qed.

Lemma F_nlt_lt_inf (x y : float) :
  (y <? x)%float = false -> f_finite y = true -> f_not_nan x = true ->
  (x <? infinity)%float = true.
Proof. unfold f_finite, f_not_nan. sf_cases. Qed.

Lemma F_nlt_gt_ninf (x y : float) :
  (x <? y)%float = false -> f_finite y = true -> f_not_nan x = true ->
  (neg_infinity <? x)%float = true.
Proof. unfold f_finite, f_not_nan. sf_cases. Qed.

Lemma F_is_inf (x : float) :
  (x <? infinity)%float = false -> f_not_nan x = true -> x = infinity.
Proof.
  intros H1 H2. apply Prim2SF_inj. rewrite Prim2SF_infinity.
  revert H1 H2. unfold f_not_nan. sf_cases.
Qed.

Lemma F_is_ninf (x : float) :
  (neg_infinity <? x)%float = false -> f_not_nan x = true -> x = neg_infinity.
Proof.
  intros H1 H2. apply Prim2SF_inj. rewrite Prim2SF_neg_infinity.
  revert H1 H2. unfold f_not_nan. sf_cases.
Qed.

Lemma F_mul_pos_inf (d : float) :
  (0 <? d)%float = true -> (d * infinity)%float = infinity.
Proof.
  intros H. apply Prim2SF_inj. revert H. sf_cases.
Qed.

Lemma F_mul_neg_inf (d : float) :
  (d <? 0)%float = true -> (d * infinity)%float = neg_infinity.
Proof.
  intros H. apply Prim2SF_inj. revert H. sf_cases.
Qed.

Lemma F_mul_pos_ninf (d : float) :
  (0 <? d)%float = true -> (d * neg_infinity)%float = neg_infinity.
Proof.
  intros H. apply Prim2SF_inj. revert H. sf_cases.
Qed.

Lemma F_mul_neg_ninf (d : float) :
  (d <? 0)%float = true -> (d * neg_infinity)%float = infinity.
Proof.
  intros H. apply Prim2SF_inj. revert H. sf_cases.
Qed.

(** ** The ray/box test on rays parallel to a slab *)

Section Parallel.
Variables (a : axis) (box : Box float) (r : Ray3 float).
Hypothesis Hpar : parallel_to_slab a r.

Lemma parallel_inside_slab :
  origin_inside a box r ->
  t_near a box r = neg_infinity /\ t_far a box r = infinity.
Proof using Hpar.
  intros [Hlo Hhi]. unfold to_min, to_max in *.
  unfold t_near, t_far, bound.
  destruct Hpar as [[Hi Hs]|[Hi Hs]]; rewrite Hi, Hs; cbn [negb s_mul float_Scalar].
  - split; [now apply F_mul_neg_inf | now apply F_mul_pos_inf].
  - split; [now apply F_mul_pos_ninf | now apply F_mul_neg_ninf].
Qed.

Lemma parallel_outside_slab :
  origin_outside a box r ->
  (t_near a box r = infinity /\ t_far a box r = infinity) \/
  (t_near a box r = neg_infinity /\ t_far a box r = neg_infinity).
Proof using Hpar.
  unfold origin_outside, to_min, to_max, t_near, t_far, bound.
  intros [[Hlo Hhi]|[Hlo Hhi]];
    destruct Hpar as [[Hi Hs]|[Hi Hs]]; rewrite Hi, Hs;
    cbn [negb s_mul float_Scalar].
  - left. split; now apply F_mul_pos_inf.
  - right. split; now apply F_mul_pos_ninf.
  - right. split; now apply F_mul_neg_inf.
  - left. split; now apply F_mul_neg_ninf.
Qed.
End Parallel.

(** Case analysis on the refusal tests still undecided in the goal. *)
Ltac split_checks :=
  repeat match goal with
    | |- context [fst (if ?c then _ else _)] =>
        let E := fresh "C" in destruct c eqn:E
    end;
  cbn [fst negb orb].

(** A slab that spans the whole line never refuses, and leaves the answer to
    the other two axes. *)
Lemma aabb_whole_slab (a : axis) (box : Box float) (r : Ray3 float) :
  t_near a box r = neg_infinity -> t_far a box r = infinity ->
  fst (aabb_ray_intersect box r) =
  two_slabs_meet (fst (others a)) (snd (others a)) box r.
Proof.
  intros Hn Hf. unfold aabb_ray_intersect, two_slabs_meet.
  destruct a; cbn [others fst snd]; rewrite Hn, Hf;
    cbn [s_gt s_lt float_Scalar]; rewrite ?F_inf_lt, ?F_lt_ninf; cbn [orb].
  - (* X *)
    generalize (t_near AxisY box r) (t_far AxisY box r)
               (t_near AxisZ box r) (t_far AxisZ box r). intros y0 y1 z0 z1.
    destruct (neg_infinity <? y0)%float eqn:E0;
      destruct (y1 <? infinity)%float eqn:E1;
      rewrite ?F_inf_lt, ?F_lt_ninf, ?(F_below_ninf y0 z1 E0),
        ?(F_above_inf y1 z0 E1); cbn [orb];
      split_checks; reflexivity.
  - (* Y *)
    split_checks; reflexivity.
  - (* Z *)
    split_checks; reflexivity.
Qed.

(** A slab that lies wholly at one infinity refuses the ray as soon as
    another axis has finite parameters to compare it with, NaN apart. *)
Lemma aabb_beside_slab (a : axis) (box : Box float) (r : Ray3 float) :
  (t_near a box r = infinity /\ t_far a box r = infinity) \/
  (t_near a box r = neg_infinity /\ t_far a box r = neg_infinity) ->
  slab_not_nan (fst (others a)) box r = true ->
  slab_not_nan (snd (others a)) box r = true ->
  slab_finite (fst (others a)) box r || slab_finite (snd (others a)) box r = true ->
  fst (aabb_ray_intersect box r) = false.
Proof.
  unfold slab_not_nan, slab_finite, aabb_ray_intersect.
  destruct a; cbn [others fst snd]; intros [[Hn Hf]|[Hn Hf]]; rewrite Hn, Hf;
    cbn [s_gt s_lt float_Scalar]; rewrite ?F_inf_lt, ?F_lt_ninf; cbn [orb].
  all: match goal with
       | |- context [t_near ?b ?bx ?ry] =>
           generalize (t_near b bx ry) (t_far b bx ry); intros p0 p1
       end.
  all: match goal with
       | |- context [t_near ?b ?bx ?ry] =>
           generalize (t_near b bx ry) (t_far b bx ry); intros q0 q1
       end.
  all: intros N1 N2 Fin.
  all: split_checks; try reflexivity; exfalso.
  all: repeat match goal with
         | H : context [if ?c then _ else _] |- _ => destruct c eqn:?
         end.
  all: unfold f_finite, f_not_nan in *.
  all: sf_cases.
  all: rewrite ?andb_false_r in *; cbn [orb andb] in *; try discriminate.
Qed.

(** C6, amended.  For a ray in double precision that is parallel to the
    planes of a slab (reciprocal direction infinite on that axis, sign bit
    telling its sign): with the origin strictly inside the extent of the box
    on that axis (low plane behind, high plane ahead, as the test computes
    the two differences) the answer is that of the slab test on the other two
    axes alone; with the origin outside the extent (both planes ahead, or
    both behind) the answer is [false], provided no parameter computed on the
    other two axes is NaN and those of one of them are finite. *)
Theorem aabb_parallel_ray (a : axis) (box : Box float) (r : Ray3 float) :
  parallel_to_slab a r ->
  (origin_inside a box r ->
   fst (aabb_ray_intersect box r) =
   two_slabs_meet (fst (others a)) (snd (others a)) box r) /\
  (origin_outside a box r ->
   slab_not_nan (fst (others a)) box r = true ->
   slab_not_nan (snd (others a)) box r = true ->
   slab_finite (fst (others a)) box r || slab_finite (snd (others a)) box r = true ->
   fst (aabb_ray_intersect box r) = false).
Proof.
  intros Hpar. split.
  - intros Hin.
    destruct (parallel_inside_slab a box r Hpar Hin) as [Hn Hf].
    now apply aabb_whole_slab.
  - intros Hout. apply aabb_beside_slab.
    now apply parallel_outside_slab.
Qed.

Lemma aabb_parallel_ray_witness :
  (parallel_to_slab AxisX ray_through_box /\
   origin_inside AxisX unit_box ray_through_box /\
   fst (aabb_ray_intersect unit_box ray_through_box) =
   two_slabs_meet AxisY AxisZ unit_box ray_through_box) /\
  (parallel_to_slab AxisX ray_beside_box /\
   origin_outside AxisX unit_box ray_beside_box /\
   fst (aabb_ray_intersect unit_box ray_beside_box) = false).
Proof.
  assert (P1 : parallel_to_slab AxisX ray_through_box) by (left; now split).
  assert (I1 : origin_inside AxisX unit_box ray_through_box) by (now split).
  assert (P2 : parallel_to_slab AxisX ray_beside_box) by (left; now split).
  assert (O2 : origin_outside AxisX unit_box ray_beside_box) by (right; now split).
  split.
  - split; [exact P1|]. split; [exact I1|].
    exact (proj1 (aabb_parallel_ray AxisX unit_box ray_through_box P1) I1).
  - split; [exact P2|]. split; [exact O2|].
    exact (proj2 (aabb_parallel_ray AxisX unit_box ray_beside_box P2) O2
                 eq_refl eq_refl eq_refl).
Defined.

(** C6 as stated fails.  The ray from (0, -5, -1) along (0, 0, 1) has no
    direction component on Y, reciprocal +infinity there, and its origin lies
    outside the Y extent [0, 1] of the unit cube; it passes beside the cube.
    Its origin lies on the plane x = 0 of the cube, so the X entry parameter
    is 0 * infinity = NaN, every comparison with it is false, and the test
    answers [true]. *)
Lemma aabb_accepts_ray_beside_box :
  comp AxisY (direction ray_in_face) = 0%float /\
  comp AxisY (invdir ray_in_face) = infinity /\
  sign_bit AxisY ray_in_face = false /\
  (comp AxisY (origin ray_in_face) <? comp AxisY (box_min unit_box))%float = true /\
  (comp AxisY (box_min unit_box) <=? comp AxisY (box_max unit_box))%float = true /\
  f_not_nan (t_near AxisX unit_box ray_in_face) = false /\
  fst (aabb_ray_intersect unit_box ray_in_face) = true.
Proof. repeat split; reflexivity. Qed.

(** The same without NaN: on a box of extent 2^1001 a ray of direction
    (0, 2^-1000, 2^-1000) overflows the Y and Z parameters to infinities,
    and a ray beside the box on X is accepted. *)
Example aabb_accepts_ray_overflow :
  origin_outside AxisX huge_box ray_beside_huge_box /\
  slab_not_nan AxisY huge_box ray_beside_huge_box = true /\
  slab_not_nan AxisZ huge_box ray_beside_huge_box = true /\
  slab_finite AxisY huge_box ray_beside_huge_box = false /\
  slab_finite AxisZ huge_box ray_beside_huge_box = false /\
  fst (aabb_ray_intersect huge_box ray_beside_huge_box) = true.
Proof. split; [right; now split | repeat split; reflexivity]. Qed.

(** A sign bit that disagrees with the reciprocal (direction -0.0 stored
    with sign bit 0) makes the test refuse a ray that goes through the box. *)
Example aabb_refuses_on_wrong_sign_bit :
  origin_inside AxisX unit_box ray_wrong_sign /\
  two_slabs_meet AxisY AxisZ unit_box ray_wrong_sign = true /\
  fst (aabb_ray_intersect unit_box ray_wrong_sign) = false.
Proof. repeat split; reflexivity. Qed.

(** C2 as stated fails.  The box [1,2]^3 and the ray from the origin along
    (1,1,1) with segment [0, 0.5]: every slab interval is [1, 2], which the
    segment does not reach, and the test answers [true], writing back the
    empty interval [1, 0.5]. *)
Lemma aabb_accepts_missed_segment :
  (tmin short_ray <? tmax short_ray)%float = true /\
  t_near AxisX far_box short_ray = 1%float /\
  t_far AxisX far_box short_ray = 2%float /\
  segment_meets_slabs far_box short_ray = false /\
  fst (aabb_ray_intersect far_box short_ray) = true /\
  tmin (snd (aabb_ray_intersect far_box short_ray)) = 1%float /\
  tmax (snd (aabb_ray_intersect far_box short_ray)) = 0.5%float.
Proof. repeat split; reflexivity. Qed.

(** ** The doubles other than NaN are totally ordered *)

Lemma digits2_pos_bounds (m : positive) :
  2 ^ (Z.pos (digits2_pos m) - 1) <= Z.pos m < 2 ^ Z.pos (digits2_pos m).
Proof.
  induction m as [m IH|m IH|]; cbn [digits2_pos].
  - rewrite Pos2Z.inj_succ.
    replace (Z.succ (Z.pos (digits2_pos m)) - 1) with (Z.succ (Z.pos (digits2_pos m) - 1)) by lia.
    rewrite !Z.pow_succ_r by lia. lia.
  - rewrite Pos2Z.inj_succ.
    replace (Z.succ (Z.pos (digits2_pos m)) - 1) with (Z.succ (Z.pos (digits2_pos m) - 1)) by lia.
    rewrite !Z.pow_succ_r by lia. lia.
  - cbn. lia.
Qed.

Lemma valid_finite (s : bool) (m : positive) (e : Z) :
  valid_binary (S754_finite s m e) = true ->
  -1074 <= e <= 971 /\ Z.pos m < 2 ^ 53 /\ (-1074 < e -> 2 ^ 52 <= Z.pos m).
Proof.
  unfold valid_binary, SpecFloat.valid_binary, bounded, canonical_mantissa, fexp, emin, emax, prec.
  intros H. apply andb_true_iff in H. destruct H as [H1 H2].
  apply Z.eqb_eq in H1. apply Z.leb_le in H2.
  pose proof (digits2_pos_bounds m) as [Hlo Hhi].
  set (d := Z.pos (digits2_pos m)) in *.
  assert (Hd : d <= 53) by lia.
  split; [lia|]. split.
  - apply Z.lt_le_trans with (1 := Hhi). apply Z.pow_le_mono_r; lia.
  - intros He. assert (Hd53 : d - 1 = 52) by lia. now rewrite Hd53 in Hlo.
Qed.

Lemma mag_lt_exp (m1 m2 : positive) (e1 e2 : Z) (s1 s2 : bool) :
  valid_binary (S754_finite s1 m1 e1) = true ->
  valid_binary (S754_finite s2 m2 e2) = true ->
  e1 < e2 -> Z.pos m1 * 2 ^ (e1 + 1074) < Z.pos m2 * 2 ^ (e2 + 1074).
Proof.
  intros V1 V2 He.
  apply valid_finite in V1, V2.
  destruct V1 as (E1 & M1 & _), V2 as (E2 & _ & M2).
  specialize (M2 ltac:(lia)).
  apply Z.lt_le_trans with (2 ^ 53 * 2 ^ (e1 + 1074)).
  - apply Z.mul_lt_mono_pos_r; [apply Z.pow_pos_nonneg; lia | assumption].
  - apply Z.le_trans with (2 ^ 52 * 2 ^ (e2 + 1074)).
    + rewrite <- !Z.pow_add_r by lia. apply Z.pow_le_mono_r; lia.
    + apply Z.mul_le_mono_nonneg_r; [apply Z.pow_nonneg; lia | assumption].
Qed.

Lemma mag_bound (m : positive) (e : Z) (s : bool) :
  valid_binary (S754_finite s m e) = true ->
  0 < Z.pos m * 2 ^ (e + 1074) < rank_inf.
Proof.
  intros V. apply valid_finite in V. destruct V as (E & M & _).
  unfold rank_inf. split.
  - apply Z.mul_pos_pos; [lia | apply Z.pow_pos_nonneg; lia].
  - apply Z.lt_le_trans with (2 ^ 53 * 2 ^ (e + 1074)).
    + apply Z.mul_lt_mono_pos_r; [apply Z.pow_pos_nonneg; lia | assumption].
    + rewrite <- Z.pow_add_r by lia. apply Z.pow_le_mono_r; lia.
Qed.

Lemma sf_ltb_rank (x y : spec_float) :
  valid_binary x = true -> valid_binary y = true ->
  x <> S754_nan -> y <> S754_nan ->
  SFltb x y = (sf_rank x <? sf_rank y).
Proof.
  intros Vx Vy Nx Ny. unfold SFltb.
  assert (RI : 0 < rank_inf) by (apply Z.pow_pos_nonneg; lia).
  destruct x as [sx|sx| |sx mx ex], y as [sy|sy| |sy my ey];
    try congruence; cbn [SFcompare sf_rank];
    try (pose proof (mag_bound _ _ _ Vx)); try (pose proof (mag_bound _ _ _ Vy)).
  all: try (destruct sx; destruct sy; symmetry;
            first [apply Z.ltb_lt; lia | apply Z.ltb_ge; lia]).
  all: try (destruct sx; symmetry;
            first [apply Z.ltb_lt; lia | apply Z.ltb_ge; lia]).
  all: try (destruct sy; symmetry;
            first [apply Z.ltb_lt; lia | apply Z.ltb_ge; lia]).
  (* finite against finite *)
  destruct (Z.compare_spec ex ey) as [E|E|E].
  - rewrite E in *.
    change (Pos.compare_cont Eq mx my) with (Pos.compare mx my).
    assert (P : 0 < 2 ^ (ey + 1074))
      by (apply valid_finite in Vy; apply Z.pow_pos_nonneg; lia).
    destruct (Pos.compare_spec mx my) as [M|M|M]; destruct sx, sy; cbn [CompOpp];
      symmetry; first [apply Z.ltb_lt; nia | apply Z.ltb_ge; nia].
  - pose proof (mag_lt_exp _ _ _ _ sx sy Vx Vy E).
    destruct sx, sy; symmetry; first [apply Z.ltb_lt; lia | apply Z.ltb_ge; lia].
  - pose proof (mag_lt_exp _ _ _ _ sy sx Vy Vx E).
    destruct sx, sy; symmetry; first [apply Z.ltb_lt; lia | apply Z.ltb_ge; lia].
Qed.

Lemma f_not_nan_spec (x : float) : f_not_nan x = true -> Prim2SF x <> S754_nan.
Proof.
  unfold f_not_nan. rewrite eqb_spec. intros H E. rewrite E in H. discriminate.
Qed.

Lemma f_ltb_rank (x y : float) :
  f_not_nan x = true -> f_not_nan y = true ->
  ((x <? y)%float = true <-> (f_rank x < f_rank y)%Q).
Proof.
  intros Nx Ny. rewrite ltb_spec. unfold f_rank.
  rewrite sf_ltb_rank by auto using Prim2SF_valid, f_not_nan_spec.
  rewrite Z.ltb_lt, Zlt_Qlt. reflexivity.
Qed.


Lemma aabb_true_iff_slabs_meet_witness :
  (forall a : axis,
     f_not_nan (t_near a unit_box ray_through_box) = true /\
     f_not_nan (t_far a unit_box ray_through_box) = true) /\
  (fst (aabb_ray_intersect unit_box ray_through_box) = true <->
   exists t : Q, forall a : axis,
     (f_rank (t_near a unit_box ray_through_box) <= t
      <= f_rank (t_far a unit_box ray_through_box))%Q).
Proof.
  assert (Hv : forall a : axis,
             f_not_nan (t_near a unit_box ray_through_box) = true /\
             f_not_nan (t_far a unit_box ray_through_box) = true)
    by (intros [ | | ]; split; reflexivity).
  assert (Ho : forall a : axis,
             (f_rank (t_near a unit_box ray_through_box) <=
              f_rank (t_far a unit_box ray_through_box))%Q).
  { intros [ | | ]; apply Qlt_le_weak; apply f_ltb_rank; reflexivity. }
  split; [exact Hv|].
  exact (proj1 (aabb_true_iff_slabs_meet f_not_nan f_rank unit_box ray_through_box
                  (fun a b Va Vb => f_ltb_rank b a Vb Va)
                  (fun a b Va Vb => f_ltb_rank a b Va Vb) Hv Ho)).
Defined.

(** ** The counting tracer on exact endpoints *)

Lemma hits_cons (grid3 : ScrollGrid3) (off : Z) (c : Vec3Ix) (p : list Vec3Ix) :
  hits grid3 off (c :: p) =
  (if mem_of grid3 c =? off then 1 else 0) + hits grid3 off p.
Proof.
  unfold hits. cbn [filter].
  destruct (mem_of grid3 c =? off); cbn [length]; lia.
Qed.

Lemma count_cells_hits (grid3 : ScrollGrid3) (p : list Vec3Ix) :
  forall (array3 : DenseArray3) (off : Z),
  count_cells grid3 array3 p off = array3 off + hits grid3 off p.
Proof.
  induction p as [|c p IH]; intros.
  - unfold hits. cbn. lia.
  - rewrite hits_cons. unfold count_cells in *. cbn [fold_left].
    rewrite IH. unfold array_incr. fold (mem_of grid3 c).
    rewrite (Z.eqb_sym (mem_of grid3 c) off).
    destruct (off =? mem_of grid3 c); lia.
Qed.



Lemma line_cell_inj (a b : Vec3Ix) (i j : Z) :
  0 <= i <= chebyshev a b -> 0 <= j <= chebyshev a b ->
  line_cell a b i = line_cell a b j -> i = j.
Proof.
  intros Hi Hj E. set (D := chebyshev a b) in *.
  destruct (Z.eq_dec D 0) as [Z0|NZ]; [lia|].
  assert (HD : 0 < D) by lia.
  assert (Hdrive : Z.abs (delta0 a b) = D \/ Z.abs (delta1 a b) = D \/
                   Z.abs (delta2 a b) = D) by (unfold D, chebyshev; lia).
  unfold line_cell in E. fold D in E. injection E as E0 E1 E2.
  pose proof (bres_k_self D i HD) as Si. pose proof (bres_k_self D j HD) as Sj.
  destruct Hdrive as [H|[H|H]].
  - rewrite H, Si, Sj in E0. assert (Z.sgn (delta0 a b) <> 0) by lia. nia.
  - rewrite H, Si, Sj in E1. assert (Z.sgn (delta1 a b) <> 0) by lia. nia.
  - rewrite H, Si, Sj in E2. assert (Z.sgn (delta2 a b) <> 0) by lia. nia.
Qed.

Lemma line_NoDup (a b : Vec3Ix) : NoDup (line a b).
Proof.
  apply (NoDup_nth (line a b) a). intros i j Hi Hj E.
  pose proof (chebyshev_nonneg a b).
  rewrite line_length in Hi, Hj.
  rewrite !line_nth in E by lia.
  apply line_cell_inj in E; lia.
Qed.



Lemma hits_repeat (grid3 : ScrollGrid3) (off : Z) (c : Vec3Ix) (n : nat) :
  hits grid3 off (repeat c n) =
  if mem_of grid3 c =? off then Z.of_nat n else 0.
Proof.
  induction n as [|n IH]; cbn [repeat].
  - unfold hits. cbn. now destruct (mem_of grid3 c =? off).
  - rewrite hits_cons, IH. destruct (mem_of grid3 c =? off); lia.
Qed.

(** C7, at an input where the code departs from the specification.  For
    start = end = (2^31, 0, 0), whatever the grid and the array, already the
    first of the N runs of the counting tracer never returns: every iteration
    bumps the counter of the narrowed cell (-2^31, 0, 0), which is not on the
    path from start to end, so that with any budget the run is cut off with
    that counter raised by the budget and every other counter as it was. *)
Theorem bresenham_trace_simple_beyond_int (n fuel : nat)
    (grid3 : ScrollGrid3) (array3 : DenseArray3) :
  exists array3' : DenseArray3,
    repeat_trace_simple (S n) fuel (V3 (2 ^ 31) 0 0) (V3 (2 ^ 31) 0 0) grid3 array3
      = OutOfFuel array3' /\
    forall off : Z,
      array3' off =
      array3 off +
      (if mem_of grid3 (V3 (- 2 ^ 31) 0 0) =? off then Z.of_nat fuel else 0).
Proof.
  exists (count_cells grid3 array3 (repeat (V3 (- 2 ^ 31) 0 0) fuel)). split.
  - cbn [repeat_trace_simple].
    rewrite bresenham_trace_simple_as_trace, bresenham_trace_replay.
    rewrite run_from_beyond_int. cbn [replay]. rewrite feed_counting. reflexivity.
  - intros off. now rewrite count_cells_hits, hits_repeat.
Qed.


(** ** The 2-D tracer is the 3-D tracer in the plane z = 0 *)

Section Flat.
Context {St : Type} (f : TraceFunctor2 St).
Variables (e sx sy ax ay : Z).

Lemma loop2_x_flat (fuel : nat) : forall decy decz x y z s,
  loop_x (flat f) e sx sy 0 ax ay 0 fuel decy decz x y z s =
  loop2_x f e sx sy ax ay fuel decy x y s.
Proof.
  induction fuel as [|n IH]; intros; cbn [loop_x loop2_x]; [reflexivity|].
  unfold flat at 1. destruct (f s x y false) as [s1 go].
  destruct go; cbn [negb]; [|reflexivity].
  destruct (x =? e); [reflexivity|].
  destruct (bres_step decy ax y sy), (bres_step decz ax z 0). apply IH.
Qed.

Lemma loop2_y_flat (fuel : nat) : forall decx decz x y z s,
  loop_y (flat f) e sx sy 0 ax ay 0 fuel decx decz x y z s =
  loop2_y f e sx sy ax ay fuel decx x y s.
Proof.
  induction fuel as [|n IH]; intros; cbn [loop_y loop2_y]; [reflexivity|].
  unfold flat at 1. destruct (f s x y false) as [s1 go].
  destruct go; cbn [negb]; [|reflexivity].
  destruct (y =? e); [reflexivity|].
  destruct (bres_step decx ay x sx), (bres_step decz ay z 0). apply IH.
Qed.
End Flat.

Lemma bresenham_trace2_flat {St : Type} (f : TraceFunctor2 St) (s : St)
    (fuel : nat) (a b : Vec2Ix) :
  int_exact (lift a) (lift b) ->
  bresenham_trace2 fuel a b f s =
  bresenham_trace fuel (lift a) (lift b) (flat f) s.
Proof.
  intros (Fa0 & Fa1 & _ & Fb0 & Fb1 & _ & HD).
  unfold bresenham_trace2, bresenham_trace, lift in *.
  unfold chebyshev, delta0, delta1, delta2 in HD. cbn [c0 c1 c2] in *.
  rewrite !(preamble_exact (d0 a)), !(preamble_exact (d1 a)) by lia.
  rewrite (preamble_exact 0 0) by (cbn; lia).
  replace (0 - 0) with 0 by lia. cbn [Z.sgn Z.abs].
  change (int_mul 2 0) with 0. change (to_int 0) with 0.
  destruct (Z.leb_spec (Z.abs (d1 b - d1 a)) (Z.abs (d0 b - d0 a))) as [L|L].
  - destruct (Z.leb_spec 0 (Z.abs (d0 b - d0 a))); [|lia]. cbn [andb].
    symmetry. apply loop2_x_flat.
  - cbn [andb].
    destruct (Z.leb_spec (Z.abs (d0 b - d0 a)) (Z.abs (d1 b - d1 a))); [|lia].
    destruct (Z.leb_spec 0 (Z.abs (d1 b - d1 a))); [|lia]. cbn [andb].
    symmetry. apply loop2_y_flat.
Qed.

Lemma feed_flat_recording2 (p : list Vec3Ix) : forall l : list Vec2Ix,
  feed (flat recording2) l p = (l ++ map drop_z p, true).
Proof.
  induction p as [|c p IH]; intros; cbn [feed map].
  - now rewrite app_nil_r.
  - unfold flat at 1, recording2 at 1. rewrite IH.
    unfold drop_z at 2. now rewrite <- app_assoc.
Qed.

Lemma last_drop_z (p : list Vec3Ix) (d : Vec3Ix) :
  last (map drop_z p) (drop_z d) = drop_z (last p d).
Proof.
  induction p as [|c p IH]; [reflexivity|].
  destruct p as [|c' p]; [reflexivity|]. exact IH.
Qed.

(** The path of the 2-D tracer on exact endpoints: with enough budget the
    tracer returns, having shown Chebyshev distance plus one cells, the first
    being the start and the last the end. *)
Theorem bresenham_trace2_path (fuel : nat) (a b : Vec2Ix) :
  int_exact (lift a) (lift b) ->
  (Z.to_nat (chebyshev (lift a) (lift b)) < fuel)%nat ->
  finished (bresenham_trace2 fuel a b recording2 []) = true /\
  Z.of_nat (length (state_of (bresenham_trace2 fuel a b recording2 [])))
    = chebyshev (lift a) (lift b) + 1 /\
  hd_error (state_of (bresenham_trace2 fuel a b recording2 [])) = Some a /\
  last (state_of (bresenham_trace2 fuel a b recording2 [])) a = b.
Proof.
  intros He Hf.
  rewrite bresenham_trace2_flat, bresenham_trace_replay by assumption.
  rewrite bresenham_trace_line by assumption.
  cbn [replay]. rewrite feed_flat_recording2. cbn [fst app finished state_of].
  pose proof (chebyshev_nonneg (lift a) (lift b)).
  split; [reflexivity|].
  split; [rewrite length_map, line_length; lia|].
  split.
  - pose proof (line_first (lift a) (lift b)) as F.
    destruct (line (lift a) (lift b)) as [|c p]; [discriminate|].
    cbn [hd_error map] in *. injection F as ->. now destruct a.
  - pose proof (line_last (lift a) (lift b) (lift a)) as L.
    replace a with (drop_z (lift a)) at 2 by now destruct a.
    rewrite last_drop_z, L. now destruct b.
Qed.

Lemma bresenham_trace2_path_witness :
  int_exact (lift (V2 0 0)) (lift (V2 0 5)) /\
  finished (bresenham_trace2 6 (V2 0 0) (V2 0 5) recording2 []) = true /\
  Z.of_nat (length (state_of (bresenham_trace2 6 (V2 0 0) (V2 0 5) recording2 [])))
    = 6.
Proof.
  assert (E : int_exact (lift (V2 0 0)) (lift (V2 0 5))).
  { unfold int_exact, fits_int, int_min, int_max, chebyshev, delta0, delta1, delta2.
    cbn [c0 c1 c2 lift d0 d1]. lia. }
  split; [exact E|].
  pose proof (bresenham_trace2_path 6 (V2 0 0) (V2 0 5) E ltac:(vm_compute; lia))
    as (F & L & _).
  split; [exact F | exact L].
Defined.

(** ** What every run of the 3-D tracer has in common *)

Lemma feed_logged_prefix {St : Type} (f : TraceFunctor St) (p : list Vec3Ix) :
  forall (s : St) (l : list Vec3Ix),
  exists n : nat, snd (fst (feed (logged f) (s, l) p)) = l ++ firstn n p.
Proof.
  induction p as [|c p IH]; intros; cbn [feed].
  - exists O. cbn. now rewrite app_nil_r.
  - unfold logged at 1. cbn [fst snd].
    destruct (f s (c0 c) (c1 c) (c2 c)) as [s1 go].
    replace (V3 (c0 c) (c1 c) (c2 c)) with c by now destruct c.
    destruct go.
    + destruct (IH s1 (l ++ [c])) as [n E]. exists (S n).
      rewrite E. cbn [firstn]. now rewrite <- app_assoc.
    + exists 1%nat. cbn [fst snd firstn]. reflexivity.
Qed.

(** The functor has no say in where the 3-D tracer goes.  Whatever the
    endpoints, the budget and the functor, the cells the functor is called on
    are the first so many cells of the one path the tracer walks when it is
    never stopped, in that order; and the run is that path shown to the
    functor cell by cell until the functor declines. *)
Theorem bresenham_trace_calls_prefix {St : Type} (f : TraceFunctor St) (s : St)
    (fuel : nat) (a b : Vec3Ix) :
  (exists n : nat,
     snd (state_of (bresenham_trace fuel a b (logged f) (s, [])))
       = firstn n (trace_cells fuel a b)) /\
  bresenham_trace fuel a b f s =
    replay f s (bresenham_trace fuel a b recording []).
Proof.
  split; [|apply bresenham_trace_replay].
  rewrite bresenham_trace_replay. unfold trace_cells.
  destruct (bresenham_trace fuel a b recording []) as [p|p]; cbn [replay state_of].
  - apply (feed_logged_prefix f p s []).
  - destruct (feed_logged_prefix f p s []) as [n E]. exists n.
    destruct (feed (logged f) (s, []) p) as [[s1 l1] go]. cbn [fst snd] in *.
    now destruct go.
Qed.

(** ** Where the path of the 3-D tracer lies *)

Lemma small_run_exact : int_exact (V3 0 0 0) (V3 3 1 0).
Proof.
  unfold int_exact, fits_int, int_min, int_max, chebyshev, delta0, delta1, delta2.
  cbn [c0 c1 c2]. lia.
Qed.

Lemma small_run_budget : (Z.to_nat (chebyshev (V3 0 0 0) (V3 3 1 0)) < 4)%nat.
Proof. vm_compute. lia. Qed.

Lemma axis_between (p q D i : Z) :
  0 <= i <= D -> Z.abs (q - p) <= D ->
  between p q (p + Z.sgn (q - p) * bres_k D (Z.abs (q - p)) i).
Proof.
  intros Hi Hd. unfold between.
  destruct (Z.eq_dec D 0) as [->|NZ].
  - unfold bres_k. rewrite Z.div_0_r. lia.
  - pose proof (bres_k_bounds D (Z.abs (q - p)) ltac:(lia) ltac:(lia) i Hi) as B.
    destruct (Z.sgn_spec (q - p)) as [[? ->]|[[? ->]|[? ->]]]; lia.
Qed.

Lemma line_cell_in_hull (a b : Vec3Ix) (i : Z) :
  0 <= i <= chebyshev a b -> in_hull a b (line_cell a b i).
Proof.
  intros Hi. unfold in_hull, line_cell, delta0, delta1, delta2. cbn [c0 c1 c2].
  repeat split; apply axis_between; try assumption;
    unfold chebyshev, delta0, delta1, delta2; lia.
Qed.

Lemma In_line (a b c : Vec3Ix) :
  In c (line a b) -> exists i, 0 <= i <= chebyshev a b /\ c = line_cell a b i.
Proof.
  unfold line. rewrite in_map_iff. intros (i & <- & Hi).
  exists i. split; [|reflexivity].
  unfold zrange in Hi. rewrite in_map_iff in Hi. destruct Hi as (j & <- & Hj).
  rewrite in_seq in Hj. pose proof (chebyshev_nonneg a b). lia.
Qed.

(** On exact endpoints the 3-D tracer never leaves the box spanned by start
    and end: every cell it shows has each coordinate between those of the two
    endpoints.  With both endpoints inside a grid, so is the whole path. *)
Theorem bresenham_trace_in_hull (fuel : nat) (a b c : Vec3Ix) :
  int_exact a b -> (Z.to_nat (chebyshev a b) < fuel)%nat ->
  In c (trace_cells fuel a b) -> in_hull a b c.
Proof.
  intros He Hf. rewrite trace_cells_line by assumption. intros Hc.
  apply In_line in Hc. destruct Hc as (i & Hi & ->).
  now apply line_cell_in_hull.
Qed.

Lemma bresenham_trace_in_hull_witness :
  in_hull (V3 0 0 0) (V3 3 1 0) (V3 2 1 0).
Proof.
  apply (bresenham_trace_in_hull 4 (V3 0 0 0) (V3 3 1 0) (V3 2 1 0)
           small_run_exact small_run_budget).
  change (trace_cells 4 (V3 0 0 0) (V3 3 1 0))
    with [V3 0 0 0; V3 1 0 0; V3 2 1 0; V3 3 1 0].
  right. right. left. reflexivity.
Defined.

(** On exact endpoints the 3-D tracer shows no cell twice. *)
Theorem bresenham_trace_no_revisit (fuel : nat) (a b : Vec3Ix) :
  int_exact a b -> (Z.to_nat (chebyshev a b) < fuel)%nat ->
  NoDup (trace_cells fuel a b).
Proof.
  intros He Hf. rewrite trace_cells_line by assumption. apply line_NoDup.
Qed.

Lemma bresenham_trace_no_revisit_witness :
  NoDup (trace_cells 4 (V3 0 0 0) (V3 3 1 0)).
Proof.
  exact (bresenham_trace_no_revisit 4 (V3 0 0 0) (V3 3 1 0)
           small_run_exact small_run_budget).
Defined.

Lemma axis_near_line (p q D i : Z) :
  0 <= i <= D -> Z.abs (q - p) <= D ->
  Z.abs (2 * D * (p + Z.sgn (q - p) * bres_k D (Z.abs (q - p)) i - p)
         - 2 * i * (q - p)) <= D.
Proof.
  intros Hi Hd.
  destruct (Z.eq_dec D 0) as [->|NZ].
  - assert (i = 0) by lia. subst. lia.
  - unfold bres_k.
    pose proof (Z.div_mod (2 * i * Z.abs (q - p) + D) (2 * D) ltac:(lia)) as E.
    pose proof (Z.mod_pos_bound (2 * i * Z.abs (q - p) + D) (2 * D) ltac:(lia)) as B.
    set (k := (2 * i * Z.abs (q - p) + D) / (2 * D)) in *.
    set (m := (2 * i * Z.abs (q - p) + D) mod (2 * D)) in *.
    destruct (Z.sgn_spec (q - p)) as [[? ->]|[[? ->]|[? ->]]].
    + rewrite Z.abs_eq in E by lia. nia.
    + nia.
    + rewrite Z.abs_neq in E by lia. nia.
Qed.

(** On exact endpoints the cell the 3-D tracer shows as number [k] (from 0)
    is, on every axis, within half a cell of the point [k / D] of the way
    along the straight segment from start to end, [D] being the Chebyshev
    distance. *)
Theorem bresenham_trace_near_line (fuel : nat) (a b : Vec3Ix) (k : nat) :
  int_exact a b -> (Z.to_nat (chebyshev a b) < fuel)%nat ->
  (k < length (trace_cells fuel a b))%nat ->
  near_line a b (Z.of_nat k) (nth k (trace_cells fuel a b) a).
Proof.
  intros He Hf. rewrite trace_cells_line by assumption.
  rewrite line_length. intros Hk.
  rewrite line_nth by lia.
  pose proof (chebyshev_nonneg a b).
  unfold near_line, line_cell, delta0, delta1, delta2. cbn [c0 c1 c2].
  repeat split; apply axis_near_line; try lia;
    unfold chebyshev, delta0, delta1, delta2; lia.
Qed.

Lemma bresenham_trace_near_line_witness :
  near_line (V3 0 0 0) (V3 3 1 0) 2 (nth 2 (trace_cells 4 (V3 0 0 0) (V3 3 1 0))
                                       (V3 0 0 0)).
Proof.
  apply (bresenham_trace_near_line 4 (V3 0 0 0) (V3 3 1 0) 2
           small_run_exact small_run_budget).
  vm_compute. lia.
Defined.

(** ** Symmetries of the 3-D tracer *)

Lemma feed_on_cells {St : Type} (g : Vec3Ix -> Vec3Ix) (f : TraceFunctor St)
    (p : list Vec3Ix) : forall s : St,
  feed (on_cells g f) s p = feed f s (map g p).
Proof.
  induction p as [|c p IH]; intros; cbn [feed map]; [reflexivity|].
  unfold on_cells at 1.
  replace (V3 (c0 c) (c1 c) (c2 c)) with c by now destruct c.
  destruct (f s (c0 (g c)) (c1 (g c)) (c2 (g c))) as [s1 go].
  destruct go; [apply IH | reflexivity].
Qed.

(** A map of the grid that keeps the Chebyshev distance and sends the line
    between two cells to the line between their images turns a run into the
    run between the images. *)
Lemma bresenham_trace_map {St : Type} (g : Vec3Ix -> Vec3Ix) (f : TraceFunctor St)
    (s : St) (fuel : nat) (a b : Vec3Ix) :
  int_exact a b -> int_exact (g a) (g b) ->
  (Z.to_nat (chebyshev a b) < fuel)%nat ->
  chebyshev (g a) (g b) = chebyshev a b ->
  (forall i, line_cell (g a) (g b) i = g (line_cell a b i)) ->
  bresenham_trace fuel (g a) (g b) f s = bresenham_trace fuel a b (on_cells g f) s.
Proof.
  intros He He' Hf HD Hc.
  rewrite (bresenham_trace_replay fuel (g a)), (bresenham_trace_replay fuel a).
  rewrite !bresenham_trace_line by (assumption || lia).
  cbn [replay]. rewrite feed_on_cells. do 3 f_equal.
  unfold line. rewrite HD, map_map. apply map_ext. exact Hc.
Qed.

Lemma chebyshev_flip_shift (e t a b : Vec3Ix) :
  unit_signs e ->
  chebyshev (flip_shift e t a) (flip_shift e t b) = chebyshev a b.
Proof.
  intros (H0 & H1 & H2).
  unfold chebyshev, delta0, delta1, delta2, flip_shift. cbn [c0 c1 c2].
  destruct H0 as [-> | ->], H1 as [-> | ->], H2 as [-> | ->]; lia.
Qed.

Lemma axis_flip_shift (e t p q k : Z) :
  e = 1 \/ e = -1 ->
  e * p + t + Z.sgn (e * q + t - (e * p + t)) * k = e * (p + Z.sgn (q - p) * k) + t.
Proof.
  intros [-> | ->].
  - replace (1 * q + t - (1 * p + t)) with (q - p) by ring. ring.
  - replace (-1 * q + t - (-1 * p + t)) with (- (q - p)) by ring.
    rewrite Z.sgn_opp. ring.
Qed.

Lemma abs_flip_shift (e t p q : Z) :
  e = 1 \/ e = -1 -> Z.abs (e * q + t - (e * p + t)) = Z.abs (q - p).
Proof. intros [-> | ->]; lia. Qed.

Lemma line_cell_flip_shift (e t a b : Vec3Ix) (i : Z) :
  unit_signs e ->
  line_cell (flip_shift e t a) (flip_shift e t b) i = flip_shift e t (line_cell a b i).
Proof.
  intros He. unfold line_cell. rewrite chebyshev_flip_shift by assumption.
  destruct He as (H0 & H1 & H2).
  unfold delta0, delta1, delta2, flip_shift. cbn [c0 c1 c2].
  rewrite !abs_flip_shift by assumption.
  f_equal; now apply axis_flip_shift.
Qed.

(** The 3-D tracer commutes with the shifts and the axis mirrorings of the
    grid: when both pairs of endpoints are exact, tracing between the
    mirrored and shifted endpoints is tracing between the original ones with
    every cell mirrored and shifted before the functor sees it. *)
Theorem bresenham_trace_flip_shift {St : Type} (f : TraceFunctor St) (s : St)
    (fuel : nat) (e t a b : Vec3Ix) :
  unit_signs e ->
  int_exact a b -> int_exact (flip_shift e t a) (flip_shift e t b) ->
  (Z.to_nat (chebyshev a b) < fuel)%nat ->
  bresenham_trace fuel (flip_shift e t a) (flip_shift e t b) f s =
  bresenham_trace fuel a b (on_cells (flip_shift e t) f) s.
Proof.
  intros Hu He He' Hf.
  apply bresenham_trace_map; try assumption.
  - now apply chebyshev_flip_shift.
  - intros. now apply line_cell_flip_shift.
Qed.

Lemma bresenham_trace_flip_shift_witness :
  bresenham_trace 4 (flip_shift (V3 (-1) 1 1) (V3 10 0 0) (V3 0 0 0))
                    (flip_shift (V3 (-1) 1 1) (V3 10 0 0) (V3 3 1 0)) recording [] =
  bresenham_trace 4 (V3 0 0 0) (V3 3 1 0)
                  (on_cells (flip_shift (V3 (-1) 1 1) (V3 10 0 0)) recording) [].
Proof.
  apply (bresenham_trace_flip_shift recording [] 4 (V3 (-1) 1 1) (V3 10 0 0)
           (V3 0 0 0) (V3 3 1 0)).
  - unfold unit_signs. cbn [c0 c1 c2]. lia.
  - exact small_run_exact.
  - unfold int_exact, fits_int, int_min, int_max, chebyshev, delta0, delta1, delta2,
      flip_shift. cbn [c0 c1 c2]. lia.
  - exact small_run_budget.
Defined.

Lemma chebyshev_swap (a b : Vec3Ix) :
  chebyshev (swap_cell a) (swap_cell b) = chebyshev a b.
Proof. unfold chebyshev, delta0, delta1, delta2, swap_cell. cbn [c0 c1 c2]. lia. Qed.

Lemma chebyshev_rot (a b : Vec3Ix) :
  chebyshev (rot_cell a) (rot_cell b) = chebyshev a b.
Proof. unfold chebyshev, delta0, delta1, delta2, rot_cell. cbn [c0 c1 c2]. lia. Qed.

Lemma int_exact_swap (a b : Vec3Ix) :
  int_exact a b -> int_exact (swap_cell a) (swap_cell b).
Proof.
  unfold int_exact. rewrite chebyshev_swap. unfold swap_cell. cbn [c0 c1 c2]. tauto.
Qed.

Lemma int_exact_rot (a b : Vec3Ix) :
  int_exact a b -> int_exact (rot_cell a) (rot_cell b).
Proof.
  unfold int_exact. rewrite chebyshev_rot. unfold rot_cell. cbn [c0 c1 c2]. tauto.
Qed.

(** The three loops of the 3-D tracer and the order in which the driving
    axis is chosen do not favour an axis: on exact endpoints, exchanging the
    x and y coordinates of both endpoints, or rotating their three
    coordinates, gives the same path with the coordinates of every cell
    exchanged or rotated alike, also when two distances tie. *)
Theorem bresenham_trace_axes {St : Type} (f : TraceFunctor St) (s : St)
    (fuel : nat) (a b : Vec3Ix) :
  int_exact a b -> (Z.to_nat (chebyshev a b) < fuel)%nat ->
  bresenham_trace fuel (swap_cell a) (swap_cell b) f s =
    bresenham_trace fuel a b (swap_xy f) s /\
  bresenham_trace fuel (rot_cell a) (rot_cell b) f s =
    bresenham_trace fuel a b (rot_zxy f) s.
Proof.
  intros He Hf. split.
  - change (swap_xy f) with (on_cells swap_cell f).
    apply bresenham_trace_map; try assumption.
    + now apply int_exact_swap.
    + apply chebyshev_swap.
    + intros. unfold line_cell. rewrite chebyshev_swap. reflexivity.
  - change (rot_zxy f) with (on_cells rot_cell f).
    apply bresenham_trace_map; try assumption.
    + now apply int_exact_rot.
    + apply chebyshev_rot.
    + intros. unfold line_cell. rewrite chebyshev_rot. reflexivity.
Qed.

Lemma bresenham_trace_axes_witness :
  bresenham_trace 4 (swap_cell (V3 0 0 0)) (swap_cell (V3 3 1 0)) recording [] =
    bresenham_trace 4 (V3 0 0 0) (V3 3 1 0) (swap_xy recording) [] /\
  bresenham_trace 4 (rot_cell (V3 0 0 0)) (rot_cell (V3 3 1 0)) recording [] =
    bresenham_trace 4 (V3 0 0 0) (V3 3 1 0) (rot_zxy recording) [].
Proof.
  exact (bresenham_trace_axes recording [] 4 (V3 0 0 0) (V3 3 1 0)
           small_run_exact small_run_budget).
Defined.

(** ** The counting tracer on a grid whose cells share counters *)



(** On the folded grid the path from (0,0,0) to (3,1,0) hits each of the
    two counters twice. *)
Example folded_grid_hits :
  hits folded_grid 0 (trace_cells 4 (V3 0 0 0) (V3 3 1 0)) = 2 /\
  hits folded_grid 1 (trace_cells 4 (V3 0 0 0) (V3 3 1 0)) = 2.
Proof. split; reflexivity. Qed.

(** ** Early exit of the 2-D tracer *)

Lemma flat_eq {St : Type} (f : TraceFunctor2 St) (s : St) (x y z : Z) :
  flat f s x y z = f s x y false.
Proof. reflexivity. Qed.

Lemma flat_logged2 {St : Type} (f : TraceFunctor2 St) (s : St)
    (l : list (Vec2Ix * bool)) (x y z : Z) :
  flat (logged2 f) (s, l) x y z =
  ((fst (f s x y false), l ++ [(V2 x y, false)]), snd (f s x y false)).
Proof. unfold flat, logged2. cbn [fst snd]. now destruct (f s x y false). Qed.

Lemma feed_flat_lift {St : Type} (f : TraceFunctor2 St) (p : list Vec3Ix) :
  forall s : St, feed (flat f) s (map lift (map drop_z p)) = feed (flat f) s p.
Proof.
  induction p as [|c p IH]; intros; cbn [feed map]; [reflexivity|].
  rewrite !(flat_eq f). cbn [lift drop_z c0 c1 d0 d1].
  destruct (f s (c0 c) (c1 c) false) as [s1 go].
  destruct go; [apply IH | reflexivity].
Qed.

Lemma replay_flat_recording2 {St : Type} (f : TraceFunctor2 St) (s : St)
    (o : outcome (list Vec3Ix)) :
  replay (flat f) s (map_outcome (map lift) (replay (flat recording2) [] o)) =
  replay (flat f) s o.
Proof.
  destruct o as [p|p]; cbn [replay]; rewrite feed_flat_recording2;
    cbn [fst app map_outcome replay]; now rewrite feed_flat_lift.
Qed.

(** Every run of the 2-D tracer is the path it would record, shown to the
    functor cell by cell, with the flag [false], until the functor declines. *)
Lemma bresenham_trace2_replay {St : Type} (f : TraceFunctor2 St) (s : St)
    (fuel : nat) (a b : Vec2Ix) :
  bresenham_trace2 fuel a b f s =
  replay (flat f) s
    (map_outcome (map lift) (bresenham_trace2 fuel a b recording2 [])).
Proof.
  unfold bresenham_trace2.
  destruct (sign_abs (to_int (wrap64 (d0 b - d0 a)))) as [sx dx].
  destruct (sign_abs (to_int (wrap64 (d1 b - d1 a)))) as [sy dy].
  destruct (dy <=? dx).
  - rewrite <- (loop2_x_flat f _ _ _ _ _ fuel _ 0 _ _ 0 s).
    rewrite <- (loop2_x_flat recording2 _ _ _ _ _ fuel _ 0 _ _ 0 []).
    rewrite (loop_x_replay _ _ _ _ _ _ _ (flat f)).
    rewrite (loop_x_replay _ _ _ _ _ _ _ (flat recording2)).
    symmetry. apply replay_flat_recording2.
  - destruct (dx <=? dy); [|reflexivity].
    rewrite <- (loop2_y_flat f _ _ _ _ _ fuel _ 0 _ _ 0 s).
    rewrite <- (loop2_y_flat recording2 _ _ _ _ _ fuel _ 0 _ _ 0 []).
    rewrite (loop_y_replay _ _ _ _ _ _ _ (flat f)).
    rewrite (loop_y_replay _ _ _ _ _ _ _ (flat recording2)).
    symmetry. apply replay_flat_recording2.
Qed.

Lemma feed_logged2_stop {St : Type} (f : TraceFunctor2 St) :
  forall (p : list Vec2Ix) (k : nat) (s : St) (l : list (Vec2Ix * bool)),
  (1 <= k <= length p)%nat ->
  answers (flat f) s (map lift (firstn k p)) = repeat true (k - 1) ++ [false] ->
  exists s', feed (flat (logged2 f)) (s, l) (map lift p) =
             ((s', l ++ map unflagged (firstn k p)), false).
Proof.
  induction p as [|c p IH]; intros k s l Hk Ha; [simpl in Hk; lia|].
  destruct k as [|k]; [lia|].
  cbn [firstn map answers] in Ha. cbn [feed map].
  rewrite (flat_eq f) in Ha. rewrite flat_logged2.
  cbn [fst snd lift c0 c1 c2] in *.
  destruct (f s (d0 c) (d1 c) false) as [s1 go]. cbn [fst snd].
  replace (V2 (d0 c) (d1 c)) with c by now destruct c.
  destruct k as [|k].
  - cbn in Ha. injection Ha as ->. exists s1. now destruct p.
  - replace (S (S k) - 1)%nat with (S k) in Ha by lia.
    cbn [repeat app] in Ha. injection Ha as -> Ha.
    destruct (IH (S k) s1 (l ++ [(c, false)])) as [s' E].
    + simpl in Hk. lia.
    + now replace (S k - 1)%nat with k by lia.
    + exists s'. rewrite E. cbn [firstn map]. unfold unflagged at 2.
      now rewrite <- app_assoc.
Qed.

Lemma feed_logged2 {St : Type} (f : TraceFunctor2 St) (p : list Vec3Ix) :
  forall (s : St) (l : list (Vec2Ix * bool)),
  fst (fst (feed (flat (logged2 f)) (s, l) p)) = fst (feed (flat f) s p) /\
  snd (feed (flat (logged2 f)) (s, l) p) = snd (feed (flat f) s p).
Proof.
  induction p as [|c p IH]; intros; cbn [feed]; [now split|].
  rewrite flat_logged2, (flat_eq f).
  destruct (f s (c0 c) (c1 c) false) as [s1 go]. cbn [fst snd].
  destruct go; [apply IH | now split].
Qed.

Lemma bresenham_trace2_logged {St : Type} (f : TraceFunctor2 St) (s : St)
    (l : list (Vec2Ix * bool)) (fuel : nat) (a b : Vec2Ix) :
  map_outcome fst (bresenham_trace2 fuel a b (logged2 f) (s, l)) =
  bresenham_trace2 fuel a b f s.
Proof.
  rewrite (bresenham_trace2_replay f), (bresenham_trace2_replay (logged2 f)).
  destruct (bresenham_trace2 fuel a b recording2 []) as [p|p];
    cbn [replay map_outcome].
  - f_equal. apply feed_logged2.
  - destruct (feed_logged2 f (map lift p) s l) as [E1 E2].
    destruct (feed (flat (logged2 f)) (s, l) (map lift p)) as [[s1 l1] g1].
    destruct (feed (flat f) s (map lift p)) as [s2 g2]. cbn [fst snd] in *. subst.
    now destruct g2.
Qed.

(** A functor that answers "stop" on its k-th call, and "go on" on the calls
    before, is called exactly [k] times by the 2-D tracer, on the first [k]
    cells of the path the uninterrupted tracer walks and with the flag
    [false] each time, and the tracer then returns; this holds whatever the
    endpoints and the budget.  The calls are counted by a record kept beside
    the functor, which leaves its run as it is. *)
Theorem bresenham_trace2_early_exit {St : Type} (f : TraceFunctor2 St) (s : St)
    (fuel : nat) (a b : Vec2Ix) (k : nat) :
  (1 <= k <= length (trace_cells2 fuel a b))%nat ->
  answers (flat f) s (map lift (firstn k (trace_cells2 fuel a b)))
    = repeat true (k - 1) ++ [false] ->
  finished (bresenham_trace2 fuel a b (logged2 f) (s, [])) = true /\
  snd (state_of (bresenham_trace2 fuel a b (logged2 f) (s, [])))
    = map unflagged (firstn k (trace_cells2 fuel a b)) /\
  length (snd (state_of (bresenham_trace2 fuel a b (logged2 f) (s, [])))) = k /\
  map_outcome fst (bresenham_trace2 fuel a b (logged2 f) (s, [])) =
    bresenham_trace2 fuel a b f s.
Proof.
  intros Hk Ha.
  assert (G : finished (bresenham_trace2 fuel a b (logged2 f) (s, [])) = true /\
              snd (state_of (bresenham_trace2 fuel a b (logged2 f) (s, [])))
                = map unflagged (firstn k (trace_cells2 fuel a b))).
  { destruct (feed_logged2_stop f _ k s [] Hk Ha) as [s' E].
    rewrite bresenham_trace2_replay. unfold trace_cells2 in *.
    destruct (bresenham_trace2 fuel a b recording2 []) as [p|p];
      cbn [state_of replay map_outcome] in *; rewrite E;
      cbn [fst snd finished state_of app]; split; reflexivity. }
  destruct G as (G1 & G2).
  split; [exact G1|]. split; [exact G2|]. split.
  - rewrite G2, length_map, length_firstn. lia.
  - apply bresenham_trace2_logged.
Qed.

Lemma bresenham_trace2_early_exit_witness :
  finished (bresenham_trace2 10 (V2 0 0) (V2 0 5) (logged2 stop_at_second2)
                             (O, [])) = true /\
  snd (state_of (bresenham_trace2 10 (V2 0 0) (V2 0 5) (logged2 stop_at_second2)
                                  (O, [])))
    = map unflagged (firstn 2 (trace_cells2 10 (V2 0 0) (V2 0 5))).
Proof.
  assert (Hk : (1 <= 2 <= length (trace_cells2 10 (V2 0 0) (V2 0 5)))%nat)
    by (vm_compute; lia).
  pose proof (bresenham_trace2_early_exit stop_at_second2 O 10 (V2 0 0) (V2 0 5)
                2 Hk eq_refl) as (G1 & G2 & _).
  split; [exact G1 | exact G2].
Defined.

(** ** The ray/box test: what it writes and what it leaves *)

Lemma aabb_frame {T : Type} `{Scalar T} (box : Box T) (r : Ray3 T) :
  origin (snd (aabb_ray_intersect box r)) = origin r /\
  direction (snd (aabb_ray_intersect box r)) = direction r /\
  invdir (snd (aabb_ray_intersect box r)) = invdir r /\
  sign (snd (aabb_ray_intersect box r)) = sign r.
Proof.
  unfold aabb_ray_intersect.
  repeat match goal with
    | |- context [if ?c then _ else _] => destruct c
    end; cbn [snd set_tmin set_tmax origin direction invdir sign]; now repeat split.
Qed.

Lemma slabs_frame {T : Type} `{Scalar T} (box : Box T) (r r' : Ray3 T) :
  origin r' = origin r -> invdir r' = invdir r -> sign r' = sign r ->
  forall a : axis,
    t_near a box r' = t_near a box r /\ t_far a box r' = t_far a box r.
Proof.
  intros Ho Hi Hs a. unfold t_near, t_far, sign_bit. now rewrite Ho, Hi, Hs.
Qed.

Lemma aabb_answer_frame {T : Type} `{Scalar T} (box : Box T) (r r' : Ray3 T) :
  origin r' = origin r -> invdir r' = invdir r -> sign r' = sign r ->
  fst (aabb_ray_intersect box r') = fst (aabb_ray_intersect box r).
Proof.
  intros Ho Hi Hs. pose proof (slabs_frame box r r' Ho Hi Hs) as F.
  unfold aabb_ray_intersect.
  destruct (F AxisX) as [-> ->], (F AxisY) as [-> ->], (F AxisZ) as [-> ->].
  repeat match goal with
    | |- context [fst (if ?c then _ else _)] => destruct c
    end; reflexivity.
Qed.

(** Whatever the scalar type and whatever the answer, the test leaves the
    origin, the direction, the reciprocal direction and the sign bits of the
    ray as they were, and [tmin] and [tmax] either as they were or, by the
    type's own comparisons, [tmin] greater and [tmax] less than before. *)
Theorem aabb_only_tightens {T : Type} `{Scalar T} (box : Box T) (r : Ray3 T) :
  origin (snd (aabb_ray_intersect box r)) = origin r /\
  direction (snd (aabb_ray_intersect box r)) = direction r /\
  invdir (snd (aabb_ray_intersect box r)) = invdir r /\
  sign (snd (aabb_ray_intersect box r)) = sign r /\
  (tmin (snd (aabb_ray_intersect box r)) = tmin r \/
   s_gt (tmin (snd (aabb_ray_intersect box r))) (tmin r) = true) /\
  (tmax (snd (aabb_ray_intersect box r)) = tmax r \/
   s_lt (tmax (snd (aabb_ray_intersect box r))) (tmax r) = true).
Proof.
  destruct (aabb_frame box r) as (Fo & Fd & Fi & Fs).
  repeat (split; [assumption|]).
  unfold aabb_ray_intersect.
  destruct (s_gt (t_near AxisX box r) (t_far AxisY box r) ||
            s_gt (t_near AxisY box r) (t_far AxisX box r)); [cbn; auto|].
  match goal with
  | |- context [if ?c then (false, r) else _] => destruct c
  end; [cbn; auto|].
  cbn [snd].
  match goal with
  | |- context [s_gt ?t (tmin r)] => generalize t; intros lo
  end.
  match goal with
  | |- context [s_lt ?t (tmax _)] => generalize t; intros hi
  end.
  destruct (s_gt lo (tmin r)) eqn:E1; cbn [tmax set_tmin];
    destruct (s_lt hi (tmax r)) eqn:E2; cbn [tmin tmax set_tmin set_tmax]; auto.
Qed.

(** The answer and the two bounds the test clips with depend on the box and
    on the origin, reciprocal direction and sign bits of the ray only. *)
Lemma aabb_shape {T : Type} `{Scalar T} (box : Box T) (r : Ray3 T) :
  exists (ok : bool) (lo hi : T),
    forall r' : Ray3 T,
      origin r' = origin r -> invdir r' = invdir r -> sign r' = sign r ->
      aabb_ray_intersect box r' =
      if ok then
        (true,
         let r1 := if s_gt lo (tmin r') then set_tmin r' lo else r' in
         if s_lt hi (tmax r1) then set_tmax r1 hi else r1)
      else (false, r').
Proof.
  exists (fst (aabb_ray_intersect box r)).
  exists (let tmin1 := if s_gt (t_near AxisY box r) (t_near AxisX box r)
                       then t_near AxisY box r else t_near AxisX box r in
          if s_gt (t_near AxisZ box r) tmin1 then t_near AxisZ box r else tmin1).
  exists (let tmax1 := if s_lt (t_far AxisY box r) (t_far AxisX box r)
                       then t_far AxisY box r else t_far AxisX box r in
          if s_lt (t_far AxisZ box r) tmax1 then t_far AxisZ box r else tmax1).
  intros r' Ho Hi Hs.
  pose proof (slabs_frame box r r' Ho Hi Hs) as F.
  unfold aabb_ray_intersect.
  destruct (F AxisX) as [-> ->], (F AxisY) as [-> ->], (F AxisZ) as [-> ->].
  destruct (s_gt (t_near AxisX box r) (t_far AxisY box r) ||
            s_gt (t_near AxisY box r) (t_far AxisX box r)); [reflexivity|].
  match goal with
  | |- context [if ?c then (false, r) else _] => destruct c
  end; reflexivity.
Qed.

(** Testing a ray against the same box a second time changes nothing: on
    every scalar type on which no value is greater or less than itself
    (doubles, NaN included, and rationals are such), the second test gives
    the answer of the first and leaves the ray as the first left it. *)
Theorem aabb_ray_intersect_idempotent {T : Type} `{Scalar T}
    (box : Box T) (r : Ray3 T) :
  (forall a : T, s_gt a a = false) -> (forall a : T, s_lt a a = false) ->
  aabb_ray_intersect box (snd (aabb_ray_intersect box r)) =
  aabb_ray_intersect box r.
Proof.
  intros Hgt Hlt.
  destruct (aabb_shape box r) as (ok & lo & hi & Sh).
  destruct (aabb_frame box r) as (Fo & Fd & Fi & Fs).
  rewrite (Sh _ Fo Fi Fs).
  rewrite (Sh r eq_refl eq_refl eq_refl).
  destruct ok; cbn [snd]; [|reflexivity].
  f_equal.
  destruct (s_gt lo (tmin r)) eqn:E1; cbn [tmin tmax set_tmin set_tmax];
    destruct (s_lt hi (tmax r)) eqn:E2; cbn [tmin tmax set_tmin set_tmax];
    rewrite ?Hgt, ?Hlt, ?E1, ?E2; cbn [tmin tmax set_tmin set_tmax];
    rewrite ?Hgt, ?Hlt, ?E1, ?E2; reflexivity.
Qed.

Lemma F_ltb_irrefl (x : float) : (x <? x)%float = false.
Proof.
  rewrite ltb_spec. unfold SFltb, SFcompare.
  destruct (Prim2SF x) as [[|]|[|]| |[|] m e]; try reflexivity;
    rewrite Z.compare_refl, Pos.compare_cont_refl; reflexivity.
Qed.

Lemma aabb_ray_intersect_idempotent_witness :
  aabb_ray_intersect unit_box (snd (aabb_ray_intersect unit_box ray_through_box)) =
  aabb_ray_intersect unit_box ray_through_box.
Proof.
  apply (aabb_ray_intersect_idempotent unit_box ray_through_box).
  - intros a. apply F_ltb_irrefl.
  - intros a. apply F_ltb_irrefl.
Defined.

(** On a scalar type whose comparisons are those of a total order on the
    values at hand (rationals; doubles other than NaN, the infinities
    included), a test that answers [true] writes back the largest of the old
    [tmin] and the three entry parameters, and the smallest of the old
    [tmax] and the three exit parameters: the new [tmin] is one of these four
    values and no less than any of them, the new [tmax] one of those four and
    no greater than any. *)
Theorem aabb_clips_interval {T : Type} `{Scalar T}
    (valid : T -> bool) (rank : T -> Q) (box : Box T) (r : Ray3 T) :
  (forall a b : T, valid a = true -> valid b = true ->
     (s_gt a b = true <-> (rank b < rank a)%Q)) ->
  (forall a b : T, valid a = true -> valid b = true ->
     (s_lt a b = true <-> (rank a < rank b)%Q)) ->
  (forall a : axis,
     valid (t_near a box r) = true /\ valid (t_far a box r) = true) ->
  valid (tmin r) = true -> valid (tmax r) = true ->
  fst (aabb_ray_intersect box r) = true ->
  ((rank (tmin r) <= rank (tmin (snd (aabb_ray_intersect box r))))%Q /\
   (forall a : axis,
      (rank (t_near a box r) <= rank (tmin (snd (aabb_ray_intersect box r))))%Q) /\
   (tmin (snd (aabb_ray_intersect box r)) = tmin r \/
    exists a : axis, tmin (snd (aabb_ray_intersect box r)) = t_near a box r)) /\
  ((rank (tmax (snd (aabb_ray_intersect box r))) <= rank (tmax r))%Q /\
   (forall a : axis,
      (rank (tmax (snd (aabb_ray_intersect box r))) <= rank (t_far a box r))%Q) /\
   (tmax (snd (aabb_ray_intersect box r)) = tmax r \/
    exists a : axis, tmax (snd (aabb_ray_intersect box r)) = t_far a box r)).
Proof.
  intros Hgt Hlt Hv Vmin Vmax Ht.
  destruct (aabb_clip_low valid rank Hgt Hlt box r Hv Vmin Vmax Ht)
    as [(L0 & L1 & L2 & L3) Lm].
  destruct (aabb_clip_high valid rank Hgt Hlt box r Hv Vmin Vmax Ht)
    as [(U0 & U1 & U2 & U3) Um].
  split; (split; [assumption|]); split.
  - intros [ | | ]; assumption.
  - destruct Lm as [E|[E|[E|E]]]; [now left|right..].
    + now exists AxisX.
    + now exists AxisY.
    + now exists AxisZ.
  - intros [ | | ]; assumption.
  - destruct Um as [E|[E|[E|E]]]; [now left|right..].
    + now exists AxisX.
    + now exists AxisY.
    + now exists AxisZ.
Qed.

Lemma aabb_clips_interval_witness :
  (forall a : axis,
     f_not_nan (t_near a unit_box ray_through_box) = true /\
     f_not_nan (t_far a unit_box ray_through_box) = true) /\
  tmin (snd (aabb_ray_intersect unit_box ray_through_box)) = 1%float /\
  tmax (snd (aabb_ray_intersect unit_box ray_through_box)) = 2%float /\
  (f_rank (tmin ray_through_box) <=
   f_rank (tmin (snd (aabb_ray_intersect unit_box ray_through_box))))%Q /\
  (f_rank (tmax (snd (aabb_ray_intersect unit_box ray_through_box))) <=
   f_rank (tmax ray_through_box))%Q.
Proof.
  assert (Hv : forall a : axis,
             f_not_nan (t_near a unit_box ray_through_box) = true /\
             f_not_nan (t_far a unit_box ray_through_box) = true)
    by (intros [ | | ]; split; reflexivity).
  split; [exact Hv|]. split; [reflexivity|]. split; [reflexivity|].
  pose proof (aabb_clips_interval f_not_nan f_rank unit_box ray_through_box
                (fun a b Va Vb => f_ltb_rank b a Vb Va)
                (fun a b Va Vb => f_ltb_rank a b Va Vb) Hv eq_refl eq_refl eq_refl)
    as [(L & _) (U & _)].
  split; [exact L | exact U].
Defined.

(** ** The ray/box test on exact scalars: what the answer means in space *)

Lemma comp_ray_point (a : axis) (r : Ray3 Q) (t : Q) :
  comp a (ray_point r t) = (comp a (origin r) + t * comp a (direction r))%Q.
Proof. now destruct a. Qed.

Lemma inv_sign_Q (d i : Q) :
  ~ (d == 0)%Q -> (i == / d)%Q ->
  (d * i == 1)%Q /\ ((d < 0)%Q -> (i < 0)%Q) /\ ((0 <= d)%Q -> (0 < i)%Q).
Proof.
  intros Hd Hi.
  assert (E : (d * i == 1)%Q) by (rewrite Hi; now apply Qmult_inv_r).
  split; [exact E|]. split; intros; nra.
Qed.

Lemma well_formed_signs (r : Ray3 Q) :
  ray_well_formed_Q r -> ray_signs_agree_Q r.
Proof.
  intros Hw a. destruct (Hw a) as (Hd & Hi & Hs).
  destruct (inv_sign_Q _ _ Hd Hi) as (E & Hn & Hp).
  rewrite Hs.
  destruct (s_lt (comp a (direction r)) 0%Q) eqn:L.
  - apply Q_lt_true in L. symmetry. apply Q_lt_true. auto.
  - apply Q_lt_false in L. symmetry. apply Q_lt_false.
    apply Qlt_le_weak. auto.
Qed.

Lemma scale_pos (d i x t : Q) :
  (d * i == 1)%Q -> (0 < d)%Q -> (0 < i)%Q ->
  ((x * i <= t)%Q <-> (x <= t * d)%Q) /\ ((t <= x * i)%Q <-> (t * d <= x)%Q).
Proof.
  intros E Hd Hi.
  assert (Rx : (x == (x * i) * d)%Q)
    by (transitivity (x * (d * i))%Q; [rewrite E; ring | ring]).
  assert (Rt : (t == (t * d) * i)%Q)
    by (transitivity (t * (d * i))%Q; [rewrite E; ring | ring]).
  repeat split; intros A.
  - assert (0 <= (t - x * i) * d)%Q by (apply Qmult_le_0_compat; lra). lra.
  - assert (0 <= (t * d - x) * i)%Q by (apply Qmult_le_0_compat; lra). lra.
  - assert (0 <= (x * i - t) * d)%Q by (apply Qmult_le_0_compat; lra). lra.
  - assert (0 <= (x - t * d) * i)%Q by (apply Qmult_le_0_compat; lra). lra.
Qed.

Lemma scale_neg (d i x t : Q) :
  (d * i == 1)%Q -> (d < 0)%Q -> (i < 0)%Q ->
  ((x * i <= t)%Q <-> (t * d <= x)%Q) /\ ((t <= x * i)%Q <-> (x <= t * d)%Q).
Proof.
  intros E Hd Hi.
  assert (Rx : (x == (x * i) * d)%Q)
    by (transitivity (x * (d * i))%Q; [rewrite E; ring | ring]).
  assert (Rt : (t == (t * d) * i)%Q)
    by (transitivity (t * (d * i))%Q; [rewrite E; ring | ring]).
  repeat split; intros A.
  - assert (0 <= (t - x * i) * (- d))%Q by (apply Qmult_le_0_compat; lra). lra.
  - assert (0 <= (x - t * d) * (- i))%Q by (apply Qmult_le_0_compat; lra). lra.
  - assert (0 <= (x * i - t) * (- d))%Q by (apply Qmult_le_0_compat; lra). lra.
  - assert (0 <= (t * d - x) * (- i))%Q by (apply Qmult_le_0_compat; lra). lra.
Qed.

(** A parameter lies between the entry and the exit parameter of an axis
    exactly when the point of the ray at that parameter lies within the
    extent of the box on that axis. *)
Lemma slab_point_Q (a : axis) (box : Box Q) (r : Ray3 Q) (t : Q) :
  ray_well_formed_Q r ->
  ((t_near a box r <= t <= t_far a box r)%Q <->
   (comp a (box_min box) <= comp a (ray_point r t) <= comp a (box_max box))%Q).
Proof.
  intros Hw. destruct (Hw a) as (Hd & Hi & Hs).
  destruct (inv_sign_Q _ _ Hd Hi) as (E & Hn & Hp).
  rewrite comp_ray_point.
  unfold t_near, t_far, bound. cbn [s_sub s_mul Q_Scalar].
  rewrite Hs. clear Hs Hw Hi.
  destruct (s_lt (comp a (direction r)) 0%Q) eqn:L; cbn [negb]; lazy iota.
  - apply Q_lt_true in L. specialize (Hn L).
    destruct (scale_neg _ _ (comp a (box_max box) - comp a (origin r)) t E L Hn)
      as [A1 _].
    destruct (scale_neg _ _ (comp a (box_min box) - comp a (origin r)) t E L Hn)
      as [_ A2].
    rewrite A1, A2. split; intros [? ?]; split; lra.
  - apply Q_lt_false in L. specialize (Hp L).
    assert (Hd0 : (0 < comp a (direction r))%Q).
    { apply Qnot_le_lt. intros C. apply Hd. lra. }
    destruct (scale_pos _ _ (comp a (box_min box) - comp a (origin r)) t E Hd0 Hp)
      as [A1 _].
    destruct (scale_pos _ _ (comp a (box_max box) - comp a (origin r)) t E Hd0 Hp)
      as [_ A2].
    rewrite A1, A2. split; intros [? ?]; split; lra.
Qed.

Lemma far_box_ordered : box_ordered_Q far_box_Q.
Proof. intros [ | | ]; cbn; lra. Qed.

Lemma mid_box_ordered : box_ordered_Q mid_box_Q.
Proof. intros [ | | ]; cbn; lra. Qed.

Lemma long_ray_well_formed : ray_well_formed_Q long_ray_Q.
Proof.
  intros [ | | ]; cbn; (split; [intros E; discriminate E|]); split; reflexivity.
Qed.

Lemma point_in_far_box : in_box_Q far_box_Q (ray_point long_ray_Q (7 # 4)).
Proof. intros [ | | ]; cbn; lra. Qed.

Lemma point_in_mid_box : in_box_Q mid_box_Q (ray_point long_ray_Q (7 # 4)).
Proof. intros [ | | ]; cbn; lra. Qed.

(** On exact rationals, for a box with min <= max and a ray whose direction
    has no zero component and whose reciprocal direction and sign bits are
    those of that direction, the test answers [true] exactly when the line
    through the ray passes through the box: some point origin + t * direction
    lies in it. *)
Theorem aabb_line_meets_box_Q (box : Box Q) (r : Ray3 Q) :
  box_ordered_Q box -> ray_well_formed_Q r ->
  (fst (aabb_ray_intersect box r) = true <->
   exists t : Q, in_box_Q box (ray_point r t)).
Proof.
  intros Hb Hw.
  destruct (aabb_true_iff_slabs_meet_Q box r Hb (well_formed_signs r Hw)) as [A _].
  rewrite A. unfold in_box_Q.
  split; intros [t Ht]; exists t; intros a; apply (slab_point_Q a box r t Hw), Ht.
Qed.

Lemma aabb_line_meets_box_Q_witness :
  box_ordered_Q far_box_Q /\ ray_well_formed_Q long_ray_Q /\
  fst (aabb_ray_intersect far_box_Q long_ray_Q) = true.
Proof.
  split; [exact far_box_ordered|]. split; [exact long_ray_well_formed|].
  apply (aabb_line_meets_box_Q far_box_Q long_ray_Q far_box_ordered
           long_ray_well_formed).
  exists (7 # 4)%Q. exact point_in_far_box.
Defined.

Lemma aabb_clip_point_Q (box : Box Q) (r : Ray3 Q) :
  ray_signs_agree_Q r ->
  fst (aabb_ray_intersect box r) = true ->
  forall t : Q,
    (tmin (snd (aabb_ray_intersect box r)) <= t <=
     tmax (snd (aabb_ray_intersect box r)))%Q <->
    ((tmin r <= t <= tmax r)%Q /\
     forall a : axis, (t_near a box r <= t <= t_far a box r)%Q).
Proof.
  intros Hs Ht t.
  assert (Hgt : forall a b : Q, true = true -> true = true ->
                  (s_gt a b = true <-> (b < a)%Q))
    by (intros; apply Q_gt_true).
  assert (Hlt : forall a b : Q, true = true -> true = true ->
                  (s_lt a b = true <-> (a < b)%Q))
    by (intros; apply Q_lt_true).
  assert (Hv : forall a : axis, true = true /\ true = true) by (intros; now split).
  destruct (aabb_clip_low (fun _ => true) (fun q => q) Hgt Hlt box r Hv
              eq_refl eq_refl Ht) as [(L0 & L1 & L2 & L3) Lm].
  destruct (aabb_clip_high (fun _ => true) (fun q => q) Hgt Hlt box r Hv
              eq_refl eq_refl Ht) as [(U0 & U1 & U2 & U3) Um].
  split.
  - intros [A B]. split; [lra|]. intros [ | | ]; lra.
  - intros [[A B] S].
    pose proof (S AxisX) as [? ?]. pose proof (S AxisY) as [? ?].
    pose proof (S AxisZ) as [? ?].
    split.
    + destruct Lm as [-> |[-> |[-> | ->]]]; assumption.
    + destruct Um as [-> |[-> |[-> | ->]]]; assumption.
Qed.

(** Under the same conditions, a test that answers [true] clips the segment
    of the ray to the box: a parameter lies in the interval written back
    exactly when it lies in the interval the ray came with and the point of
    the ray at that parameter lies in the box. *)
Theorem aabb_clips_to_box_Q (box : Box Q) (r : Ray3 Q) (t : Q) :
  ray_well_formed_Q r ->
  fst (aabb_ray_intersect box r) = true ->
  ((tmin (snd (aabb_ray_intersect box r)) <= t <=
    tmax (snd (aabb_ray_intersect box r)))%Q <->
   ((tmin r <= t <= tmax r)%Q /\ in_box_Q box (ray_point r t))).
Proof.
  intros Hw Ht.
  rewrite (aabb_clip_point_Q box r (well_formed_signs r Hw) Ht t).
  unfold in_box_Q.
  split; intros [A B]; (split; [exact A|]); intros a;
    apply (slab_point_Q a box r t Hw), B.
Qed.

Lemma aabb_clips_to_box_Q_witness :
  (tmin (snd (aabb_ray_intersect far_box_Q long_ray_Q)) <= 7 # 4 <=
   tmax (snd (aabb_ray_intersect far_box_Q long_ray_Q)))%Q.
Proof.
  apply (aabb_clips_to_box_Q far_box_Q long_ray_Q (7 # 4)
           long_ray_well_formed eq_refl).
  split; [cbn; lra | exact point_in_far_box].
Defined.

Lemma well_formed_frame (r r' : Ray3 Q) :
  origin r' = origin r -> direction r' = direction r ->
  invdir r' = invdir r -> sign r' = sign r ->
  ray_well_formed_Q r -> ray_well_formed_Q r' /\
  forall t, ray_point r' t = ray_point r t.
Proof.
  intros Ho Hd Hi Hs Hw. split.
  - intros a. unfold sign_bit. rewrite Hd, Hi, Hs. apply Hw.
  - intros t. unfold ray_point. now rewrite Ho, Hd.
Qed.

(** Chaining the test against two boxes, under the same conditions on the
    ray: when each box alone is accepted, the second test accepts the ray the
    first one left, and the interval it writes back holds exactly the
    parameters of the original segment whose points lie in both boxes,
    whichever box is tested first. *)
Theorem aabb_two_boxes_Q (box1 box2 : Box Q) (r : Ray3 Q) (t : Q) :
  ray_well_formed_Q r ->
  fst (aabb_ray_intersect box1 r) = true ->
  fst (aabb_ray_intersect box2 r) = true ->
  fst (aabb_ray_intersect box2 (snd (aabb_ray_intersect box1 r))) = true /\
  ((tmin (snd (aabb_ray_intersect box2 (snd (aabb_ray_intersect box1 r)))) <= t <=
    tmax (snd (aabb_ray_intersect box2 (snd (aabb_ray_intersect box1 r)))))%Q <->
   ((tmin r <= t <= tmax r)%Q /\
    in_box_Q box1 (ray_point r t) /\ in_box_Q box2 (ray_point r t))).
Proof.
  intros Hw H1 H2.
  destruct (aabb_frame box1 r) as (Fo & Fd & Fi & Fs).
  destruct (well_formed_frame r _ Fo Fd Fi Fs Hw) as [Hw1 Hp].
  assert (H21 : fst (aabb_ray_intersect box2 (snd (aabb_ray_intersect box1 r))) = true)
    by (rewrite (aabb_answer_frame box2 r _ Fo Fi Fs); exact H2).
  split; [exact H21|].
  rewrite (aabb_clip_point_Q box2 _ (well_formed_signs _ Hw1) H21 t).
  rewrite (aabb_clip_point_Q box1 r (well_formed_signs r Hw) H1 t).
  unfold in_box_Q.
  split.
  - intros [[A B] C]. split; [exact A|]. split; intros a.
    + apply (slab_point_Q a box1 r t Hw), B.
    + rewrite <- Hp. apply (slab_point_Q a box2 _ t Hw1), C.
  - intros [A [B C]]. split; [split; [exact A|]|]; intros a.
    + apply (slab_point_Q a box1 r t Hw), B.
    + apply (slab_point_Q a box2 _ t Hw1). rewrite Hp. apply C.
Qed.

Lemma aabb_two_boxes_Q_witness :
  fst (aabb_ray_intersect mid_box_Q
         (snd (aabb_ray_intersect far_box_Q long_ray_Q))) = true /\
  (tmin (snd (aabb_ray_intersect mid_box_Q
                (snd (aabb_ray_intersect far_box_Q long_ray_Q)))) <= 7 # 4 <=
   tmax (snd (aabb_ray_intersect mid_box_Q
                (snd (aabb_ray_intersect far_box_Q long_ray_Q)))))%Q.
Proof.
  destruct (aabb_two_boxes_Q far_box_Q mid_box_Q long_ray_Q (7 # 4)
              long_ray_well_formed eq_refl eq_refl) as [A B].
  split; [exact A|]. apply B.
  split; [cbn; lra|]. split; [exact point_in_far_box | exact point_in_mid_box].
Defined.

(** ** The ray/box test on a ray whose origin is not a number *)

Lemma f_nan_spec (x : float) : f_not_nan x = false -> Prim2SF x = S754_nan.
Proof.
  unfold f_not_nan. rewrite eqb_spec. unfold SFeqb, SFcompare.
  destruct (Prim2SF x) as [[|]|[|]| |[|] m e]; try discriminate; try reflexivity;
    rewrite Z.compare_refl, Pos.compare_cont_refl; discriminate.
Qed.

Lemma F_sub_nan (x y : float) :
  Prim2SF y = S754_nan -> Prim2SF (x - y) = S754_nan.
Proof.
  intros E. rewrite sub_spec, E. now destruct (Prim2SF x) as [[|]|[|]| |[|] m e].
Qed.

Lemma F_mul_nan (x y : float) :
  Prim2SF x = S754_nan -> Prim2SF (x * y) = S754_nan.
Proof. intros E. now rewrite mul_spec, E. Qed.

Lemma F_ltb_nan_l (x y : float) : Prim2SF x = S754_nan -> (x <? y)%float = false.
Proof. intros E. now rewrite ltb_spec, E. Qed.

Lemma F_ltb_nan_r (x y : float) : Prim2SF y = S754_nan -> (x <? y)%float = false.
Proof.
  intros E. rewrite ltb_spec, E. now destruct (Prim2SF x) as [[|]|[|]| |[|] m e].
Qed.

Lemma nan_slab (a : axis) (box : Box float) (r : Ray3 float) :
  f_not_nan (comp a (origin r)) = false ->
  Prim2SF (t_near a box r) = S754_nan /\ Prim2SF (t_far a box r) = S754_nan.
Proof.
  intros Hn. apply f_nan_spec in Hn.
  split; apply F_mul_nan, F_sub_nan, Hn.
Qed.

(** Names the two parameters of the axis whose origin coordinate is NaN, and
    records that every comparison with them is false. *)
Ltac nan_slab_facts a :=
  match goal with
  | N : f_not_nan (comp a (origin ?r)) = false |- context [t_near a ?box ?r] =>
      let N0 := fresh "N0" in let N1 := fresh "N1" in
      destruct (nan_slab a box r N) as [N0 N1];
      generalize dependent (t_near a box r); intros p0 N0;
      generalize dependent (t_far a box r); intros p1 N1;
      assert (A0 : forall y, (p0 <? y)%float = false)
        by (intros; now apply F_ltb_nan_l);
      assert (B0 : forall y, (y <? p0)%float = false)
        by (intros; now apply F_ltb_nan_r);
      assert (A1 : forall y, (p1 <? y)%float = false)
        by (intros; now apply F_ltb_nan_l);
      assert (B1 : forall y, (y <? p1)%float = false)
        by (intros; now apply F_ltb_nan_r)
  end.

(** In double precision, a ray whose origin has NaN for a coordinate is not
    refused on account of that axis, and the axes are not alike: with NaN on
    x the test answers [true] for every box and leaves the ray as it is,
    whatever the other two axes say; with NaN on y or on z the answer is that
    of the slab test on the other two axes. *)
Theorem aabb_nan_origin (a : axis) (box : Box float) (r : Ray3 float) :
  f_not_nan (comp a (origin r)) = false ->
  match a with
  | AxisX => aabb_ray_intersect box r = (true, r)
  | _ => fst (aabb_ray_intersect box r) =
         two_slabs_meet (fst (others a)) (snd (others a)) box r
  end.
Proof.
  intros Hn.
  destruct a; cbn [others fst snd]; unfold aabb_ray_intersect, two_slabs_meet;
    cbn [s_gt s_lt float_Scalar].
  - nan_slab_facts AxisX.
    rewrite ?A0, ?B0, ?A1, ?B1. cbn [orb].
    rewrite ?A0, ?B0, ?A1, ?B1. reflexivity.
  - nan_slab_facts AxisY.
    rewrite ?A0, ?B0, ?A1, ?B1. cbn [orb].
    match goal with
    | |- context [fst (if ?c then _ else _)] => destruct c
    end; reflexivity.
  - nan_slab_facts AxisZ.
    match goal with
    | |- context [fst (if ?c then _ else _)] => destruct c
    end; [reflexivity|].
    rewrite ?A0, ?B0, ?A1, ?B1. reflexivity.
Qed.

Lemma aabb_nan_origin_witness :
  aabb_ray_intersect unit_box ray_nan_origin = (true, ray_nan_origin).
Proof. apply (aabb_nan_origin AxisX unit_box ray_nan_origin). reflexivity. Defined.

(** ** The 2-D tracer and the 3-D tracer *)

(** On exact endpoints the 2-D tracer is the 3-D tracer at work in the plane
    z = 0: with any functor and any budget, its run is the run of the 3-D
    tracer between the same endpoints taken at z = 0, with a functor that
    disregards z and is told [false] for the flag; and the cells it shows are
    those the 3-D tracer shows, z dropped. *)
Theorem bresenham_trace2_in_plane {St : Type} (f : TraceFunctor2 St) (s : St)
    (fuel : nat) (a b : Vec2Ix) :
  int_exact (lift a) (lift b) ->
  bresenham_trace2 fuel a b f s =
    bresenham_trace fuel (lift a) (lift b) (flat f) s /\
  trace_cells2 fuel a b = map drop_z (trace_cells fuel (lift a) (lift b)).
Proof.
  intros He. split; [now apply bresenham_trace2_flat|].
  unfold trace_cells2, trace_cells.
  rewrite bresenham_trace2_flat, bresenham_trace_replay by assumption.
  destruct (bresenham_trace fuel (lift a) (lift b) recording []) as [p|p];
    cbn [replay]; rewrite feed_flat_recording2; reflexivity.
Qed.

Lemma bresenham_trace2_in_plane_witness :
  bresenham_trace2 6 (V2 0 0) (V2 0 5) recording2 [] =
    bresenham_trace 6 (lift (V2 0 0)) (lift (V2 0 5)) (flat recording2) [] /\
  trace_cells2 6 (V2 0 0) (V2 0 5) =
    map drop_z (trace_cells 6 (lift (V2 0 0)) (lift (V2 0 5))).
Proof.
  apply (bresenham_trace2_in_plane recording2 [] 6 (V2 0 0) (V2 0 5)).
  unfold int_exact, fits_int, int_min, int_max, chebyshev, delta0, delta1, delta2.
  cbn [c0 c1 c2 lift d0 d1]. lia.
Defined.
